(** * MCPHub: hub-management tools, vector search, tenancy filter

    A shallow embedding of the parts of the hub that the specification's
    testable properties talk about:

    - [VectorSearch]: the similarity query of [VectorSearchService]
      (architecture-docs/README.md, 05-service-layer.md, 04-data-flow.md);
    - [MultiTenant]: [MultiTenantService.filterByOwnership];
    - [Hub]: [HubManagementVirtualServer.callTool] / [executeTool]
      (src/services/virtualServers/hubManagementServer.ts);
    - [Embeddings]: [EmbeddingManager.syncEmbeddings].

    JavaScript values are modelled by their declared TypeScript types: an
    optional field is an [option], a [Record<string, T>] is a [gmap string T],
    strings are [string]. *)

From Stdlib Require Import QArith Lqa.
From stdpp Require Import gmap strings list fin_maps sorting pretty.

Local Open Scope string_scope.

(** ** JavaScript truthiness on the types that occur in the sources *)

Module Js.

(** [!!b] for an optional boolean: [undefined] and [false] are falsy. *)
Definition truthy_bool (b : option bool) : bool :=
  match b with Some true => true | _ => false end.

(** [!!s] for an optional string: [undefined] and [''] are falsy. *)
Definition truthy_str (s : option string) : bool :=
  match s with
  | Some s => negb (String.eqb s "")
  | None => false
  end.

(** [b !== false] for an optional boolean. *)
Definition not_false (b : option bool) : bool :=
  match b with Some false => false | _ => true end.

(** [a || b] on optional strings. *)
Definition or_str (a b : option string) : option string :=
  if truthy_str a then a else b.

(** [a || d] where [d] is a string literal. *)
Definition or_default (a : option string) (d : string) : string :=
  match a with
  | Some s => if String.eqb s "" then d else s
  | None => d
  end.

(** [s.toLowerCase()], on ASCII letters. *)
Definition lower_char (c : Ascii.ascii) : Ascii.ascii :=
  let n := Ascii.nat_of_ascii c in
  if ((65 <=? n) && (n <=? 90))%nat then Ascii.ascii_of_nat (n + 32) else c.

Fixpoint toLowerCase (s : string) : string :=
  match s with
  | EmptyString => EmptyString
  | String c t => String (lower_char c) (toLowerCase t)
  end.

(** [s.includes(sub)] *)
Fixpoint includes (s sub : string) : bool :=
  String.prefix sub s
  || match s with
     | EmptyString => false
     | String _ t => includes t sub
     end.

(** A property key or template hole built from a possibly missing
    string: [undefined] is coerced to the text ['undefined']. *)
Definition to_key (s : option string) : string := default "undefined" s.

End Js.

(** ** Vector search

    [VectorSearchService.performSearch] runs one SQL query:
<<
      SELECT tool_name, server_name, description, input_schema,
             1 - (embedding <=> $1::vector) as similarity
      FROM vector_embeddings
      WHERE 1 - (embedding <=> $1::vector) > $2
      ORDER BY similarity DESC
      LIMIT $3
>>
    A row of [vector_embeddings] is modelled together with the value that
    pgvector's cosine-distance operator [embedding <=> $1] takes on it for
    the query vector at hand; every finite double is a rational, so the
    value is a [Q].  The table is the list of rows in the order the scan
    yields them.  The query names no sort key besides [similarity], so
    [ORDER BY] is modelled by a stable insertion sort on that key. *)

Module VectorSearch.

Record EmbeddingRow := {
  tool_name : string;
  server_name : string;
  description : string;
  input_schema : string;
  cosine_distance : Q   (* embedding <=> $1::vector *)
}.

Record RawResult := {
  r_tool_name : string;
  r_server_name : string;
  r_description : string;
  r_input_schema : string;
  r_similarity : Q
}.

Record SearchOptions := {
  threshold : option Q;
  limit : option nat
}.

Record SearchResult := {
  tool : string;
  server : string;
  sr_description : string;
  confidence : Q;
  schema : string;
  relevance : Q
}.

(** The SELECT list: [1 - (embedding <=> $1::vector) as similarity]. *)
Definition select_row (e : EmbeddingRow) : RawResult :=
  {| r_tool_name := tool_name e;
     r_server_name := server_name e;
     r_description := description e;
     r_input_schema := input_schema e;
     r_similarity := 1 - cosine_distance e |}.

(** [a > b] on scores. *)
Definition Qgtb (a b : Q) : bool :=
  match Qcompare a b with Gt => true | _ => false end.

(** The WHERE clause: [similarity > $2]. *)
Definition where_clause (th : Q) (r : RawResult) : bool :=
  Qgtb (r_similarity r) th.

(** ORDER BY similarity DESC. *)
Fixpoint insert_desc (r : RawResult) (l : list RawResult) : list RawResult :=
  match l with
  | [] => [r]
  | x :: xs =>
      if Qle_bool (r_similarity x) (r_similarity r)
      then r :: x :: xs
      else x :: insert_desc r xs
  end.

Definition order_by_similarity_desc (l : list RawResult) : list RawResult :=
  foldr insert_desc [] l.

Definition default_threshold : Q := 7 # 10.
Definition default_limit : nat := 10.

Definition performSearch (table : list EmbeddingRow) (options : option SearchOptions)
  : list RawResult :=
  let threshold := default default_threshold (options ≫= threshold) in
  let limit := default default_limit (options ≫= limit) in
  take limit
    (order_by_similarity_desc
       (List.filter (where_clause threshold) (map select_row table))).

Section Results.

(** [this.calculateRelevance], which the sources call and do not define. *)
Variable calculateRelevance : RawResult → option SearchOptions → Q.

Definition processResults (results : list RawResult) (options : option SearchOptions)
  : list SearchResult :=
  map (λ r, {| tool := r_tool_name r;
               server := r_server_name r;
               sr_description := r_description r;
               confidence := r_similarity r;
               schema := r_input_schema r;
               relevance := calculateRelevance r options |}) results.

(** [searchTools]: the query embedding is computed by the Embedder; its
    only use is as [$1] of the query, i.e. in [cosine_distance]. *)
Definition searchTools (table : list EmbeddingRow) (options : option SearchOptions)
  : list SearchResult :=
  processResults (performSearch table options) options.

End Results.

(** The ranking the specification speaks of: all rows by descending
    similarity, and the first [k] of them. *)
Definition ranked (table : list EmbeddingRow) : list RawResult :=
  order_by_similarity_desc (map select_row table).

Definition top_k (k : nat) (table : list EmbeddingRow) : list RawResult :=
  take k (ranked table).

(** Order on keys [(upstreamName, toolName)]. *)
Definition key_leb (a b : SearchResult) : bool :=
  match String.compare (server a) (server b) with
  | Lt => true
  | Eq => String.leb (tool a) (tool b)
  | Gt => false
  end.

Definition desc_by_confidence (out : list SearchResult) : Prop :=
  StronglySorted (λ a b, (confidence b <= confidence a)%Q) out.

Definition ties_by_key (out : list SearchResult) : Prop :=
  ∀ i j a b, (i < j)%nat → out !! i = Some a → out !! j = Some b →
             (confidence a == confidence b)%Q → key_leb a b = true.

(** Sample rows: an exact match (distance 0) and two tools of different
    upstreams at the same distance from the query. *)
Definition exact_row : EmbeddingRow :=
  {| tool_name := "weather"; server_name := "A";
     description := "Get current weather for a city";
     input_schema := "{}"; cosine_distance := 0 |}.

Definition ping_of (upstream : string) : EmbeddingRow :=
  {| tool_name := "ping"; server_name := upstream;
     description := "Ping"; input_schema := "{}";
     cosine_distance := 1 # 10 |}.

(** A relevance score for the samples: the similarity itself. *)
Definition relevance_is_similarity : RawResult → option SearchOptions → Q :=
  λ r _, r_similarity r.

End VectorSearch.

(** ** Multi-tenant visibility

    [MultiTenantService.filterByOwnership<T extends { owner?: string }>]. *)

Module MultiTenant.

Record User := {
  username : string;
  isAdmin : bool
}.

(** The constraint [T extends { owner?: string }]. *)
Class Ownable (T : Type) := owner : T → option string.

(** [!item.owner]: the owner field is absent or empty. *)
Definition no_owner `{Ownable T} (item : T) : bool :=
  negb (Js.truthy_str (owner item)).

(** [item.owner === user.username]. *)
Definition owned_by `{Ownable T} (item : T) (user : User) : bool :=
  match owner item with
  | Some o => String.eqb o (username user)
  | None => false
  end.

Definition filterByOwnership `{Ownable T} (items : list T) (user : User) : list T :=
  if isAdmin user then items
  else List.filter (λ item, no_owner item || owned_by item user) items.

(** An upstream or a group, as far as the filter looks at it. *)
Record Resource := {
  res_name : string;
  res_owner : option string
}.

#[global] Instance Resource_ownable : Ownable Resource := res_owner.

End MultiTenant.

(** ** The hub-management virtual server

    [HubManagementVirtualServer] of
    src/services/virtualServers/hubManagementServer.ts. *)

Module Hub.

(** *** Settings *)

(** A JSON value that the server passes on without looking inside. *)
#[local] Unset Elimination Schemes.
Inductive Json :=
| JNull
| JBool (b : bool)
| JNum (n : Z)
| JStr (s : string)
| JArr (items : list Json)
| JObj (fields : list (string * Json)).
#[local] Set Elimination Schemes.

(** [!!v] on such a value. *)
Definition truthy_json (v : option Json) : bool :=
  match v with
  | None | Some JNull => false
  | Some (JBool b) => b
  | Some (JNum n) => negb (n =? 0)%Z
  | Some (JStr s) => negb (String.eqb s "")
  | Some (JArr _) | Some (JObj _) => true
  end.

(** [tools?: Record<string, { enabled?: boolean; description?: string }>] *)
Record ToolConfig := {
  tc_enabled : option bool;
  tc_description : option string
}.

Record ServerConfig := {
  command : option string;
  args : option (list string);
  env : option (gmap string string);
  type : option string;
  url : option string;
  enabled : option bool;
  tools : option (gmap string ToolConfig)
}.

Record SmartRouting := {
  sr_enabled : option bool;
  openaiApiKey : option string;
  embeddingModel : option string
}.

Record Settings := {
  mcpServers : option (gmap string ServerConfig);
  groups : option Json;
  users : option Json;
  systemConfig : option Json;
  smartRouting : option SmartRouting
}.

(** *** Upstream clients, as [mcpService.getClient] hands them out *)

Record UpstreamTool := {
  t_name : string;
  t_description : option string
}.

(** [await client.listTools()] rejects, or resolves to a value whose
    [tools] field may be missing. *)
Inductive ListToolsOutcome :=
| ListToolsRejects (message : string)
| ListToolsResolves (reported : option (list UpstreamTool)).

Record Client := {
  getServerCapabilities : option Json;
  listTools : ListToolsOutcome
}.

(** *** The world the tools act on *)

Inductive Event :=
| SaveSettings (written : Settings)
| InitializeClientsFromSettings (isInit : bool).

Record World := {
  settings_file : Settings;          (* what [loadSettings] returns *)
  clients : gmap string Client;      (* the connected upstream clients *)
  trace : list Event                 (* calls to the collaborators, oldest first *)
}.

(** *** Arguments and results of tools *)

Record Args := {
  a_name : option string;
  a_command : option string;
  a_args : option (list string);
  a_env : option (gmap string string);
  a_type : option string;
  a_url : option string;
  a_enabled : option bool;
  a_includeDisabled : option bool;
  a_server : option string;
  a_toolName : option string;
  a_includeSecrets : option bool;
  a_config : Settings;               (* [required: ['config']] *)
  a_validate : option bool;
  a_merge : option bool
}.

Record ServerSummary := {
  ss_name : string;
  ss_enabled : bool;
  ss_connected : bool;
  ss_type : string;
  ss_command : option string;
  ss_url : option string;
  ss_toolCount : nat
}.

Record ToolEntry := {
  te_server : string;
  te_name : string;
  te_description : option string;
  te_enabled : bool;
  te_customDescription : bool
}.

Inductive ToolResult :=
| RText (s : string)
| RStatus (success : bool) (message : string)
| RServers (servers : list ServerSummary)
| RTools (allTools : list ToolEntry)
| RConfig (config : Settings)
| RJson (value : Json).

(** The value [callTool] resolves to. *)
Record ContentBlock := {
  cb_type : string;
  text : string
}.

Record CallToolResult := {
  content : list ContentBlock
}.

(** What [executeTool] does: return a value or throw an [Error] with a
    message. *)
Inductive Outcome (A : Type) :=
| Returns (value : A)
| Throws (message : string).
Arguments Returns {A} value.
Arguments Throws {A} message.

Definition M (A : Type) : Type := World → Outcome A * World.

Definition ret {A} (a : A) : M A := λ w, (Returns a, w).

Definition throw {A} (message : string) : M A := λ w, (Throws message, w).

Definition bind {A B} (m : M A) (k : A → M B) : M B :=
  λ w, match m w with
       | (Returns a, w') => k a w'
       | (Throws message, w') => (Throws message, w')
       end.

Notation "'let*' x ':=' m 'in' k" := (bind m (λ x, k))
  (at level 10, x name, m at level 100, k at level 200).
Notation "m ';;' k" := (bind m (λ _, k))
  (at level 100, k at level 200, right associativity).

Definition loadSettings : M Settings := λ w, (Returns (settings_file w), w).

Definition saveSettings (s : Settings) : M unit :=
  λ w, (Returns (),
        {| settings_file := s; clients := clients w;
           trace := trace w ++ [SaveSettings s] |}).

(** [mcpService.getClient(name)] *)
Definition getClient (name : string) : M (option Client) :=
  λ w, (Returns (clients w !! name), w).

(** The table behind [getClient], for the loops that look up one client
    per server: [cs !! name] is [mcpService.getClient(name)]. *)
Definition getClients : M (gmap string Client) := λ w, (Returns (clients w), w).

(** The quote character of the messages. *)
Definition dq : string := String (Ascii.ascii_of_nat 34) "".

Definition quoted (s : string) : string := dq ++ s ++ dq.

(** [settings.mcpServers?.[name]] *)
Definition server_of (s : Settings) (name : string) : option ServerConfig :=
  mcpServers s ≫= (.!! name).

(** [settings.mcpServers = ...] *)
Definition with_mcpServers (s : Settings) (m : gmap string ServerConfig) : Settings :=
  {| mcpServers := Some m; groups := groups s; users := users s;
     systemConfig := systemConfig s; smartRouting := smartRouting s |}.

(** [settings.mcpServers[name] = config], on [settings.mcpServers || {}]. *)
Definition set_server (s : Settings) (name : string) (c : ServerConfig) : Settings :=
  with_mcpServers s (<[name := c]> (default ∅ (mcpServers s))).

(** *** Collaborators

    [mcpService.initializeClientsFromSettings] rebuilds the upstream
    clients from the saved settings; [connect] stands for the set of
    clients it ends up with. *)

Section Tools.
Variable connect : Settings → gmap string Client.

Definition initializeClientsFromSettings (isInit : bool) : M unit :=
  λ w, (Returns (),
        {| settings_file := settings_file w;
           clients := connect (settings_file w);
           trace := trace w ++ [InitializeClientsFromSettings isInit] |}).

(** *** Server management *)

(** [Object.entries(settings.mcpServers || {})]; the entries come in the
    order of the map's keys. *)
Definition server_entries (s : Settings) : list (string * ServerConfig) :=
  map_to_list (default ∅ (mcpServers s)).

Definition connected (cs : gmap string Client) (name : string) : bool :=
  match cs !! name ≫= getServerCapabilities with
  | Some _ => true
  | None => false
  end.

Definition server_summary (cs : gmap string Client) (e : string * ServerConfig)
  : ServerSummary :=
  {| ss_name := e.1;
     ss_enabled := Js.not_false (enabled e.2);
     ss_connected := connected cs e.1;
     ss_type := Js.or_default (type e.2) "stdio";
     ss_command := command e.2;
     ss_url := url e.2;
     ss_toolCount := size (default ∅ (tools e.2)) |}.

Definition list_servers (a : Args) : M ToolResult :=
  let* settings := loadSettings in
  let* cs := getClients in
  let servers := map (server_summary cs) (server_entries settings) in
  if negb (Js.truthy_bool (a_includeDisabled a))
  then ret (RServers (List.filter ss_enabled servers))
  else ret (RServers servers).

(** The [serverConfig] object that [add_server] builds from its arguments. *)
Definition new_server_config (a : Args) : ServerConfig :=
  {| command := Some (Js.or_default (a_command a) "");
     args := a_args a;
     env := a_env a;
     type := Some (Js.or_default (a_type a) "stdio");
     url := a_url a;
     enabled := Some (Js.not_false (a_enabled a));
     tools := Some ∅ |}.

Definition is_type (c : ServerConfig) (t : string) : bool :=
  match type c with
  | Some t' => String.eqb t' t
  | None => false
  end.

Definition add_server (a : Args) : M ToolResult :=
  let* settings := loadSettings in
  let name := Js.to_key (a_name a) in
  if bool_decide (is_Some (server_of settings name))
  then throw ("Server " ++ quoted name ++ " already exists")
  else
    let serverConfig := new_server_config a in
    if is_type serverConfig "stdio" && negb (Js.truthy_str (command serverConfig))
    then throw "Command is required for stdio servers"
    else if (is_type serverConfig "sse" || is_type serverConfig "streamable-http")
            && negb (Js.truthy_str (url serverConfig))
    then throw "URL is required for SSE/HTTP servers"
    else
      saveSettings (set_server settings name serverConfig) ;;
      initializeClientsFromSettings false ;;
      ret (RStatus true ("Server " ++ quoted name ++ " added successfully")).

(** [if (args.x !== undefined) currentConfig.x = args.x] *)
Definition update_field {A} (new old : option A) : option A :=
  match new with
  | Some v => Some v
  | None => old
  end.

Definition updated_config (a : Args) (c : ServerConfig) : ServerConfig :=
  {| command := update_field (a_command a) (command c);
     args := update_field (a_args a) (args c);
     env := update_field (a_env a) (env c);
     type := update_field (a_type a) (type c);
     url := update_field (a_url a) (url c);
     enabled := enabled c;
     tools := tools c |}.

Definition update_server (a : Args) : M ToolResult :=
  let* settings := loadSettings in
  let name := Js.to_key (a_name a) in
  match server_of settings name with
  | None => throw ("Server " ++ quoted name ++ " not found")
  | Some currentConfig =>
      saveSettings (set_server settings name (updated_config a currentConfig)) ;;
      initializeClientsFromSettings false ;;
      ret (RStatus true ("Server " ++ quoted name ++ " updated successfully"))
  end.

Definition delete_server (a : Args) : M ToolResult :=
  let* settings := loadSettings in
  let name := Js.to_key (a_name a) in
  match server_of settings name with
  | None => throw ("Server " ++ quoted name ++ " not found")
  | Some _ =>
      saveSettings (with_mcpServers settings (delete name (default ∅ (mcpServers settings)))) ;;
      initializeClientsFromSettings false ;;
      ret (RStatus true ("Server " ++ quoted name ++ " deleted successfully"))
  end.

Definition with_enabled (c : ServerConfig) (e : option bool) : ServerConfig :=
  {| command := command c; args := args c; env := env c; type := type c;
     url := url c; enabled := e; tools := tools c |}.

Definition toggle_server (a : Args) : M ToolResult :=
  let* settings := loadSettings in
  let name := Js.to_key (a_name a) in
  match server_of settings name with
  | None => throw ("Server " ++ quoted name ++ " not found")
  | Some c =>
      saveSettings (set_server settings name (with_enabled c (a_enabled a))) ;;
      initializeClientsFromSettings false ;;
      ret (RStatus true
             ("Server " ++ quoted name ++ " "
              ++ (if Js.truthy_bool (a_enabled a) then "enabled" else "disabled")
              ++ " successfully"))
  end.

(** *** Tool management *)

(** [serverConfig.tools?.[toolName]] *)
Definition tool_config (c : ServerConfig) (toolName : string) : option ToolConfig :=
  tools c ≫= (.!! toolName).

(** [toolConfig?.enabled !== false] *)
Definition tool_enabled (c : ServerConfig) (toolName : string) : bool :=
  Js.not_false (tool_config c toolName ≫= tc_enabled).

(** [toolConfig?.description || tool.description] *)
Definition effective_description (c : ServerConfig) (tool : UpstreamTool)
  : option string :=
  Js.or_str (tool_config c (t_name tool) ≫= tc_description) (t_description tool).

(** The object pushed onto [allTools]. *)
Definition tool_entry (serverName : string) (c : ServerConfig) (tool : UpstreamTool)
  : ToolEntry :=
  {| te_server := serverName;
     te_name := t_name tool;
     te_description := effective_description c tool;
     te_enabled := tool_enabled c (t_name tool);
     te_customDescription :=
       Js.truthy_str (tool_config c (t_name tool) ≫= tc_description) |}.

(** The two [continue]s at the head of the loop over the servers. *)
Definition server_skipped (a : Args) (serverName : string) (c : ServerConfig) : bool :=
  (Js.truthy_str (a_server a) && negb (bool_decide (Some serverName = a_server a)))
  || (negb (Js.truthy_bool (enabled c)) && negb (Js.truthy_bool (a_includeDisabled a))).

(** [tools?.tools || []]; a rejected [listTools] is caught and logged. *)
Definition reported_tools (client : option Client) : list UpstreamTool :=
  match client with
  | Some cl =>
      match listTools cl with
      | ListToolsResolves (Some ts) => ts
      | ListToolsResolves None => []
      | ListToolsRejects _ => []
      end
  | None => []
  end.

(** One turn of the loop over the servers. *)
Definition tools_of_server (a : Args) (cs : gmap string Client)
    (e : string * ServerConfig) : list ToolEntry :=
  if server_skipped a e.1 e.2 then []
  else
    map (tool_entry e.1 e.2)
      (List.filter
         (λ tool, tool_enabled e.2 (t_name tool)
                  || Js.truthy_bool (a_includeDisabled a))
         (reported_tools (cs !! e.1))).

Definition list_all_tools (a : Args) : M ToolResult :=
  let* settings := loadSettings in
  let* cs := getClients in
  ret (RTools (flat_map (tools_of_server a cs) (server_entries settings))).

(** [tools[toolName].enabled = enabled], creating [tools] and the entry
    [{ enabled: true }] where they are missing. *)
Definition with_tool_enabled (c : ServerConfig) (toolName : string) (e : option bool)
  : ServerConfig :=
  let ts := default ∅ (tools c) in
  let entry := default {| tc_enabled := Some true; tc_description := None |}
                       (ts !! toolName) in
  {| command := command c; args := args c; env := env c; type := type c;
     url := url c; enabled := enabled c;
     tools := Some (<[toolName := {| tc_enabled := e;
                                     tc_description := tc_description entry |}]> ts) |}.

Definition toggle_tool (a : Args) : M ToolResult :=
  let* settings := loadSettings in
  let server := Js.to_key (a_server a) in
  let toolName := Js.to_key (a_toolName a) in
  match server_of settings server with
  | None => throw ("Server " ++ quoted server ++ " not found")
  | Some c =>
      saveSettings (set_server settings server (with_tool_enabled c toolName (a_enabled a))) ;;
      ret (RStatus true
             ("Tool " ++ quoted toolName ++ " "
              ++ (if Js.truthy_bool (a_enabled a) then "enabled" else "disabled")
              ++ " successfully"))
  end.

(** *** Configuration management *)

Definition is_secret_name (key : string) : bool :=
  Js.includes (Js.toLowerCase key) "key"
  || Js.includes (Js.toLowerCase key) "secret"
  || Js.includes (Js.toLowerCase key) "password".

Definition REDACTED : string := "***REDACTED***".

Definition redact_env (e : gmap string string) : gmap string string :=
  map_imap (λ key value, Some (if is_secret_name key then REDACTED else value)) e.

Definition redact_server (c : ServerConfig) : ServerConfig :=
  {| command := command c; args := args c; env := redact_env <$> env c;
     type := type c; url := url c; enabled := enabled c; tools := tools c |}.

Definition redact_smartRouting (sr : SmartRouting) : SmartRouting :=
  if Js.truthy_str (openaiApiKey sr)
  then {| sr_enabled := sr_enabled sr; openaiApiKey := Some REDACTED;
          embeddingModel := embeddingModel sr |}
  else sr.

(** The object [redacted] at the [return]; the copy through
    [JSON.parse(JSON.stringify(settings))] changes no field. *)
Definition redact (s : Settings) : Settings :=
  {| mcpServers :=
       (λ servers : gmap string ServerConfig, redact_server <$> servers) <$> mcpServers s;
     groups := groups s; users := users s; systemConfig := systemConfig s;
     smartRouting := redact_smartRouting <$> smartRouting s |}.

(** Two settings that differ in nothing but the values of secrets: the
    values of environment variables with a secret name, and the API keys,
    which [keys] relates. *)
Definition env_variant (e1 e2 : gmap string string) : Prop :=
  ∀ key, if is_secret_name key
         then is_Some (e1 !! key) ↔ is_Some (e2 !! key)
         else e1 !! key = e2 !! key.

Definition server_variant (c1 c2 : ServerConfig) : Prop :=
  command c1 = command c2 ∧ args c1 = args c2 ∧ type c1 = type c2
  ∧ url c1 = url c2 ∧ enabled c1 = enabled c2 ∧ tools c1 = tools c2
  ∧ option_Forall2 env_variant (env c1) (env c2).

Definition smartRouting_variant (keys : relation (option string))
    (sr1 sr2 : SmartRouting) : Prop :=
  sr_enabled sr1 = sr_enabled sr2 ∧ embeddingModel sr1 = embeddingModel sr2
  ∧ keys (openaiApiKey sr1) (openaiApiKey sr2).

Definition settings_variant (keys : relation (option string))
    (s1 s2 : Settings) : Prop :=
  groups s1 = groups s2 ∧ users s1 = users s2
  ∧ systemConfig s1 = systemConfig s2
  ∧ option_Forall2 (smartRouting_variant keys) (smartRouting s1) (smartRouting s2)
  ∧ option_Forall2
      (λ m1 m2 : gmap string ServerConfig,
         ∀ name, option_Forall2 server_variant (m1 !! name) (m2 !! name))
      (mcpServers s1) (mcpServers s2).

(** Any two key values, as long as a key is present in both or in neither. *)
Definition any_key : relation (option string) :=
  λ k1 k2, is_Some k1 ↔ is_Some k2.

(** Two keys that are both set to something non-empty, or are the same. *)
Definition set_key : relation (option string) :=
  λ k1 k2, k1 = k2 ∨ (Js.truthy_str k1 = true ∧ Js.truthy_str k2 = true).

Definition export_configuration (a : Args) : M ToolResult :=
  let* settings := loadSettings in
  if negb (Js.truthy_bool (a_includeSecrets a))
  then ret (RConfig (redact settings))
  else ret (RConfig settings).

(** The two checks on one server of an imported configuration. *)
Definition validate_server (e : string * ServerConfig) : option string :=
  if is_type e.2 "stdio" && negb (Js.truthy_str (command e.2))
  then Some ("Server " ++ quoted e.1 ++ " requires a command for stdio type")
  else if (is_type e.2 "sse" || is_type e.2 "streamable-http")
          && negb (Js.truthy_str (url e.2))
  then Some ("Server " ++ quoted e.1 ++ " requires a URL for "
             ++ default "" (type e.2) ++ " type")
  else None.

(** The loop over the servers stops at the first [throw]. *)
Fixpoint validate_servers (l : list (string * ServerConfig)) : M unit :=
  match l with
  | [] => ret ()
  | e :: l' =>
      match validate_server e with
      | Some message => throw message
      | None => validate_servers l'
      end
  end.

(** [{ ...currentSettings, ...config,
       mcpServers: { ...currentSettings.mcpServers, ...config.mcpServers } }] *)
Definition merge_settings (currentSettings config : Settings) : Settings :=
  {| mcpServers :=
       Some (default ∅ (mcpServers config) ∪ default ∅ (mcpServers currentSettings));
     groups := update_field (groups config) (groups currentSettings);
     users := update_field (users config) (users currentSettings);
     systemConfig := update_field (systemConfig config) (systemConfig currentSettings);
     smartRouting := update_field (smartRouting config) (smartRouting currentSettings) |}.

Definition import_configuration (a : Args) : M ToolResult :=
  let config := a_config a in
  (if Js.truthy_bool (a_validate a)
   then
     if negb (bool_decide (is_Some (mcpServers config))) && negb (truthy_json (groups config))
     then throw "Configuration must contain mcpServers or groups"
     else validate_servers (server_entries config)
   else ret ()) ;;
  if Js.truthy_bool (a_merge a)
  then
    let* currentSettings := loadSettings in
    saveSettings (merge_settings currentSettings config) ;;
    ret (RStatus true "Configuration merged successfully")
  else
    saveSettings config ;;
    ret (RStatus true "Configuration imported successfully").

(** *** Dispatch *)

(** The names pushed onto [this.tools] by [initializeTools]. *)
Definition tool_names : list string :=
  [ "list_servers"; "add_server"; "update_server"; "delete_server";
    "toggle_server"; "test_server"; "list_groups"; "create_group";
    "update_group"; "delete_group"; "get_system_config";
    "update_system_config"; "get_system_health"; "restart_hub";
    "list_all_tools"; "toggle_tool"; "get_logs"; "get_connection_status";
    "export_configuration"; "import_configuration" ].

(** The cases of [executeTool] whose bodies rest on [groupService],
    [logService], the service registry, timers, the process or calls on a
    live client: what they return or throw, and what they do to the
    world, is left to [collaborator_case]. *)
Definition collaborator_cases : list string :=
  [ "test_server"; "list_groups"; "create_group"; "update_group";
    "delete_group"; "get_system_config"; "update_system_config";
    "get_system_health"; "restart_hub"; "get_logs"; "get_connection_status" ].

Variable collaborator_case : string → Args → M ToolResult.

Definition executeTool (name : string) (a : Args) : M ToolResult :=
  if String.eqb name "list_servers" then list_servers a
  else if String.eqb name "add_server" then add_server a
  else if String.eqb name "update_server" then update_server a
  else if String.eqb name "delete_server" then delete_server a
  else if String.eqb name "toggle_server" then toggle_server a
  else if String.eqb name "list_all_tools" then list_all_tools a
  else if String.eqb name "toggle_tool" then toggle_tool a
  else if String.eqb name "export_configuration" then export_configuration a
  else if String.eqb name "import_configuration" then import_configuration a
  else if bool_decide (name ∈ collaborator_cases) then collaborator_case name a
  else throw ("Unknown tool: " ++ name).

(** [JSON.stringify(result, null, 2)] *)
Variable stringify : ToolResult → string.

Definition callTool (name : string) (a : Args) : World → CallToolResult * World :=
  λ w, match executeTool name a w with
       | (Returns result, w') =>
           ({| content :=
                 [ {| cb_type := "text";
                      text := match result with
                              | RText s => s
                              | _ => stringify result
                              end |} ] |}, w')
       | (Throws message, w') =>
           ({| content := [ {| cb_type := "text"; text := "Error: " ++ message |} ] |},
            w')
       end.

End Tools.

End Hub.

(** ** Keeping the embeddings in step with the tool lists

    [EmbeddingManager.syncEmbeddings] (architecture-docs/README.md) is
    given in the sources; what it calls ([getEmbeddings], [detectChanges],
    [addEmbeddings], [removeEmbeddings], [updateEmbeddings]) is not, nor
    is the Vector Index they work on. *)

Module Embeddings.

(** Modelled from the spec: a row of the Vector Index, which is missing
    from the sources: "ToolEmbedding: key = (upstreamName, toolName), text,
    vector, updatedAt"; the key is the position of the row in [rows]. *)
Record ToolEmbedding := {
  text : string;
  vector : list Q;
  updatedAt : nat
}.

(** A listed tool with the text that is embedded for it (name,
    description and formatted schema in one string). *)
Record ToolInfo := {
  name : string;
  tool_text : string
}.

(** Modelled from the spec: the Vector Index, which is missing from the
    sources, with the calls it has made to the Embedder, the keys it has
    marked for a retry and the clock that stamps [updatedAt]. *)
Record Index := {
  rows : gmap string (gmap string ToolEmbedding);  (* upstream, then tool *)
  embedder_calls : list string;                    (* texts sent to the Embedder *)
  retry : list (string * string);                  (* keys marked for a retry *)
  clock : nat
}.

Record Changes := {
  added : list ToolInfo;
  removed : list string;
  updated : list ToolInfo
}.

(** Modelled from the spec: the look-up of a row by its key in the Vector
    Index, which is missing from the sources. *)
Definition lookup_row (ix : Index) (upstream tool : string) : option ToolEmbedding :=
  rows ix !! upstream ≫= (.!! tool).

(** A tool is stored with the text it is listed with. *)
Definition stored (ix : Index) (upstream : string) (t : ToolInfo) : Prop :=
  ∃ row, lookup_row ix upstream (name t) = Some row ∧ text row = tool_text t.

Section WithEmbedder.

(** The external Embedder: the vector of a text, or a failure. *)
Variable Embedder : string → option (list Q).

(** Modelled from the spec: the write path of [upsertMany] for one row,
    which is missing from the sources: "compute a fresh embedding (calling
    the external Embedder) and write back. If the Embedder fails, leave
    the existing row intact and mark a retry; do not delete the stale
    row." *)
Definition embed_and_write (upstream : string) (t : ToolInfo) (ix : Index) : Index :=
  match Embedder (tool_text t) with
  | Some v =>
      {| rows := <[upstream :=
                     <[name t := {| text := tool_text t; vector := v;
                                    updatedAt := clock ix |}]>
                       (default ∅ (rows ix !! upstream))]> (rows ix);
         embedder_calls := embedder_calls ix ++ [tool_text t];
         retry := retry ix;
         clock := S (clock ix) |}
  | None =>
      {| rows := rows ix;
         embedder_calls := embedder_calls ix ++ [tool_text t];
         retry := (upstream, name t) :: retry ix;
         clock := clock ix |}
  end.

(** Modelled from the spec: one row of [upsertMany] of the Vector Index,
    which is missing from the sources: "for each row whose text differs
    from the stored text, compute a fresh embedding and write back." *)
Definition upsertOne (upstream : string) (ix : Index) (t : ToolInfo) : Index :=
  match lookup_row ix upstream (name t) with
  | Some row =>
      if String.eqb (text row) (tool_text t) then ix
      else embed_and_write upstream t ix
  | None => embed_and_write upstream t ix
  end.

(** Modelled from the spec: [upsertMany] of the Vector Index, which is
    missing from the sources: [upsertOne] "for each row" of the batch, in
    order. *)
Definition upsertMany (upstream : string) (batch : list ToolInfo) (ix : Index) : Index :=
  foldl (upsertOne upstream) ix batch.

(** Modelled from the spec: [deleteByKey] of the Vector Index, which is
    missing from the sources: a row is "deleted when the tool is
    removed". *)
Definition deleteByKey (upstream : string) (ix : Index) (tool : string) : Index :=
  {| rows := <[upstream := delete tool (default ∅ (rows ix !! upstream))]> (rows ix);
     embedder_calls := embedder_calls ix;
     retry := retry ix;
     clock := clock ix |}.

(** Modelled from the spec: [getEmbeddings], which is missing from the
    sources: the rows stored for one upstream. *)
Definition getEmbeddings (upstream : string) (ix : Index) : gmap string ToolEmbedding :=
  default ∅ (rows ix !! upstream).

(** Modelled from the spec: [detectChanges], which is missing from the
    sources: a tool without a row is added, a tool whose text "differs
    from the stored text" is updated, a row whose tool is no longer
    listed is removed. *)
Definition detectChanges (tools : list ToolInfo)
    (existingEmbeddings : gmap string ToolEmbedding) : Changes :=
  {| added :=
       List.filter (λ t, bool_decide (existingEmbeddings !! name t = None)) tools;
     removed :=
       List.filter (λ n, bool_decide (n ∉ map name tools))
                   (map fst (map_to_list existingEmbeddings));
     updated :=
       List.filter
         (λ t, match existingEmbeddings !! name t with
               | Some row => negb (String.eqb (text row) (tool_text t))
               | None => false
               end) tools |}.

(** Modelled from the spec: [addEmbeddings], which is missing from the
    sources: the write path of [upsertMany] for each tool handed over. *)
Definition addEmbeddings (upstream : string) (ts : list ToolInfo) (ix : Index) : Index :=
  foldl (λ ix t, embed_and_write upstream t ix) ix ts.

(** Modelled from the spec: [updateEmbeddings], which is missing from the
    sources: the write path of [upsertMany] for each tool handed over. *)
Definition updateEmbeddings (upstream : string) (ts : list ToolInfo) (ix : Index) : Index :=
  foldl (λ ix t, embed_and_write upstream t ix) ix ts.

(** Modelled from the spec: [removeEmbeddings], which is missing from the
    sources: [deleteByKey] for each name handed over. *)
Definition removeEmbeddings (upstream : string) (names : list string) (ix : Index) : Index :=
  foldl (deleteByKey upstream) ix names.

(** One turn of the loop of [syncEmbeddings]: [server.name] and the
    result of [server.listTools()] are the arguments. *)
Definition syncServer (server : string) (tools : list ToolInfo) (ix : Index) : Index :=
  let existingEmbeddings := getEmbeddings server ix in
  let changes := detectChanges tools existingEmbeddings in
  let ix := if (0 <? length (added changes))%nat
            then addEmbeddings server (added changes) ix else ix in
  let ix := if (0 <? length (removed changes))%nat
            then removeEmbeddings server (removed changes) ix else ix in
  if (0 <? length (updated changes))%nat
  then updateEmbeddings server (updated changes) ix else ix.

Definition syncEmbeddings (servers : list (string * list ToolInfo)) (ix : Index) : Index :=
  foldl (λ ix server, syncServer server.1 server.2 ix) ix servers.

End WithEmbedder.

Definition empty_index : Index :=
  {| rows := ∅; embedder_calls := []; retry := []; clock := 0 |}.

(** An Embedder that is down, and one that answers. *)
Definition embedder_down : string → option (list Q) := λ _, None.

Definition embedder_up : string → option (list Q) :=
  λ t, Some [inject_Z (Z.of_nat (String.length t))].

Definition weather_tool : ToolInfo :=
  {| name := "weather"; tool_text := "weather: Get current weather for a city" |}.

End Embeddings.

(** ** Sample settings, clients and arguments *)

Module Samples.
Import Hub.

Definition empty_settings : Settings :=
  {| mcpServers := None; groups := None; users := None;
     systemConfig := None; smartRouting := None |}.

Definition no_args : Args :=
  {| a_name := None; a_command := None; a_args := None; a_env := None;
     a_type := None; a_url := None; a_enabled := None;
     a_includeDisabled := None; a_server := None; a_toolName := None;
     a_includeSecrets := None; a_config := empty_settings;
     a_validate := None; a_merge := None |}.

Definition stdio_server (cmd : option string) (ts : gmap string ToolConfig)
  : ServerConfig :=
  {| command := cmd; args := None; env := None; type := Some "stdio";
     url := None; enabled := Some true; tools := Some ts |}.

Definition settings_with (servers : gmap string ServerConfig) : Settings :=
  {| mcpServers := Some servers; groups := None; users := None;
     systemConfig := None; smartRouting := None |}.

(** Upstream A reports the tools [weather] and [nuke]. *)
Definition weather : UpstreamTool :=
  {| t_name := "weather"; t_description := Some "Get current weather for a city" |}.

Definition nuke : UpstreamTool :=
  {| t_name := "nuke"; t_description := Some "Drop everything" |}.

Definition client_A : Client :=
  {| getServerCapabilities := Some (JObj []);
     listTools := ListToolsResolves (Some [weather; nuke]) |}.

Definition world_of (s : Settings) : World :=
  {| settings_file := s; clients := {[ "A" := client_A ]}; trace := [] |}.

(** [weather] carries an empty description override, [nuke] is switched
    off. *)
Definition overlay_settings : Settings :=
  settings_with
    {[ "A" := stdio_server (Some "/bin/cat")
                {[ "weather" := {| tc_enabled := None; tc_description := Some "" |};
                   "nuke" := {| tc_enabled := Some false; tc_description := None |} ]} ]}.

(** A configuration with a stdio server that has no command. *)
Definition broken_config : Settings :=
  settings_with {[ "echo" := stdio_server None ∅ ]}.

Definition import_args (config : Settings) (validate : option bool) : Args :=
  {| a_name := None; a_command := None; a_args := None; a_env := None;
     a_type := None; a_url := None; a_enabled := None;
     a_includeDisabled := None; a_server := None; a_toolName := None;
     a_includeSecrets := None; a_config := config;
     a_validate := validate; a_merge := None |}.

(** [add_server { name: 'echo' }]: a stdio server, no command. *)
Definition add_echo_args : Args :=
  {| a_name := Some "echo"; a_command := None; a_args := None; a_env := None;
     a_type := None; a_url := None; a_enabled := None;
     a_includeDisabled := None; a_server := None; a_toolName := None;
     a_includeSecrets := None; a_config := empty_settings;
     a_validate := None; a_merge := None |}.

(** [toggle_tool { server: 'A', toolName: 'weather', enabled: false }];
    the same object read by [update_server] names server A and sets its
    command. *)
Definition toggle_weather_args : Args :=
  {| a_name := Some "A"; a_command := Some "/bin/echo"; a_args := None;
     a_env := None; a_type := None; a_url := None; a_enabled := Some false;
     a_includeDisabled := None; a_server := Some "A";
     a_toolName := Some "weather"; a_includeSecrets := None;
     a_config := empty_settings; a_validate := None; a_merge := None |}.

(** Settings whose only content is the smart-routing API key. *)
Definition settings_with_key (key : option string) : Settings :=
  {| mcpServers := None; groups := None; users := None; systemConfig := None;
     smartRouting := Some {| sr_enabled := Some true; openaiApiKey := key;
                             embeddingModel := None |} |}.

Definition no_collaborator : string → Args → M ToolResult :=
  λ _ _, throw "collaborator not available".

Definition no_connect : Settings → gmap string Client := λ _, ∅.

Definition no_stringify : ToolResult → string := λ _, "{}".

End Samples.

(** ** More of the hub-management server: views and helpers *)

Module HubViews.
Import Hub.

(** The value [list_servers] returns, as a function of the world it
    reads. *)
Definition listed_servers (a : Args) (w : World) : list ServerSummary :=
  let servers := map (server_summary (clients w)) (server_entries (settings_file w)) in
  if negb (Js.truthy_bool (a_includeDisabled a))
  then List.filter ss_enabled servers else servers.

(** [list_all_tools] called with [a] in world [w] lists tool [t] of
    server [n]. *)
Definition tool_listed (a : Args) (w : World) (n t : string) : Prop :=
  ∃ e, e ∈ flat_map (tools_of_server a (clients w)) (server_entries (settings_file w))
       ∧ te_server e = n ∧ te_name e = t.

(** The arguments of an import of [config], nothing else set. *)
Definition import_of (config : Settings) (validate merge : option bool) : Args :=
  {| a_name := None; a_command := None; a_args := None; a_env := None;
     a_type := None; a_url := None; a_enabled := None;
     a_includeDisabled := None; a_server := None; a_toolName := None;
     a_includeSecrets := None; a_config := config;
     a_validate := validate; a_merge := merge |}.

(** A server of an imported configuration passes the checks of
    [import_configuration]. *)
Definition server_acceptable (c : ServerConfig) : Prop :=
  ¬ (type c = Some "stdio" ∧ Js.truthy_str (command c) = false)
  ∧ ¬ ((type c = Some "sse" ∨ type c = Some "streamable-http")
       ∧ Js.truthy_str (url c) = false).

(** *** Monitoring *)

Record ConnectionStatus := {
  cs_name : string;
  cs_enabled : bool;
  cs_connected : bool;
  cs_type : string;
  cs_toolCount : nat;
  cs_lastError : option string
}.

(** One turn of the loop of [get_connection_status]: [listTools] is
    called only on a connected client; a rejection is caught and becomes
    [lastError]; [tools?.tools?.length || 0]. *)
Definition connection_status (cs : gmap string Client) (e : string * ServerConfig)
  : ConnectionStatus :=
  let probe :=
    if connected cs e.1
    then match listTools <$> cs !! e.1 with
         | Some (ListToolsResolves ts) => (length (default [] ts), None)
         | Some (ListToolsRejects message) => (0, Some message)
         | None => (0, None)
         end
    else (0, None) in
  {| cs_name := e.1;
     cs_enabled := Js.not_false (enabled e.2);
     cs_connected := connected cs e.1;
     cs_type := Js.or_default (type e.2) "stdio";
     cs_toolCount := probe.1;
     cs_lastError := probe.2 |}.

Definition get_connection_status : M (list ConnectionStatus) :=
  let* settings := loadSettings in
  let* cs := getClients in
  ret (map (connection_status cs) (server_entries settings)).

Record TestResult := {
  tr_success : bool;
  tr_message : string;
  tr_details : option (option Json * nat);   (* capabilities, toolCount *)
  tr_error : option string
}.

(** [test_server], for arguments whose required [name] is [name]. *)
Definition test_server (name : string) : M TestResult :=
  let* client := getClient name in
  match client with
  | None =>
      ret {| tr_success := false;
             tr_message := "Server " ++ quoted name ++ " not found or not initialized";
             tr_details := None; tr_error := None |}
  | Some cl =>
      match listTools cl with
      | ListToolsResolves ts =>
          ret {| tr_success := true;
                 tr_message := "Server " ++ quoted name ++ " is connected";
                 tr_details := Some (getServerCapabilities cl, length (default [] ts));
                 tr_error := None |}
      | ListToolsRejects message =>
          ret {| tr_success := false;
                 tr_message := "Failed to connect to server " ++ quoted name;
                 tr_details := None; tr_error := Some message |}
      end
  end.

(** An entry of [logService.getLogs()], as far as [get_logs] reads it. *)
Record LogEntry := {
  log_level : string;
  log_message : string;
  log_timestamp : string;
  log_server : option string      (* metadata?.server *)
}.

Record LogArgs := {
  l_level : option string;
  l_server : option string;
  l_limit : option Z;
  l_since : option string
}.

(** [logs.slice(start)] *)
Definition slice_from {A} (start : Z) (l : list A) : list A :=
  if (start <? 0)%Z
  then drop (Z.to_nat (Z.max (Z.of_nat (length l) + start) 0)) l
  else drop (Z.to_nat start) l.

Section Logs.

(** [new Date(text).getTime()]; [None] is NaN, the time of an invalid
    date. *)
Variable getTime : string → option Z.

(** [a >= b] on times, false when either is NaN. *)
Definition time_geb (a b : option Z) : bool :=
  match a, b with
  | Some x, Some y => (y <=? x)%Z
  | _, _ => false
  end.

Definition level_filter (a : LogArgs) (logs : list LogEntry) : list LogEntry :=
  if Js.truthy_str (l_level a)
  then List.filter (λ log, bool_decide (Some (log_level log) = l_level a)) logs
  else logs.

Definition server_filter (a : LogArgs) (logs : list LogEntry) : list LogEntry :=
  if Js.truthy_str (l_server a)
  then List.filter
         (λ log, Js.includes (log_message log) (default "" (l_server a))
                 || bool_decide (log_server log = l_server a)) logs
  else logs.

Definition since_filter (a : LogArgs) (logs : list LogEntry) : list LogEntry :=
  if Js.truthy_str (l_since a)
  then List.filter
         (λ log, time_geb (getTime (log_timestamp log))
                          (getTime (default "" (l_since a)))) logs
  else logs.

(** [if (args.limit) logs = logs.slice(-args.limit)] *)
Definition limit_filter (a : LogArgs) (logs : list LogEntry) : list LogEntry :=
  match l_limit a with
  | Some n => if (n =? 0)%Z then logs else slice_from (- n) logs
  | None => logs
  end.

(** [get_logs], given what [logService.getLogs()] returns. *)
Definition get_logs (a : LogArgs) (logs : list LogEntry) : list LogEntry :=
  limit_filter a (since_filter a (server_filter a (level_filter a logs))).

End Logs.

(** [formatUptime], on a whole number of seconds. *)
Definition uptime_parts (seconds : N) : list (N * string) :=
  let days := (seconds / 86400)%N in
  let hours := ((seconds mod 86400) / 3600)%N in
  let minutes := ((seconds mod 3600) / 60)%N in
  let secs := (seconds mod 60)%N in
  let parts : list (N * string) := [] in
  let parts := if (0 <? days)%N then (parts ++ [(days, "d")])%list else parts in
  let parts := if (0 <? hours)%N then (parts ++ [(hours, "h")])%list else parts in
  let parts := if (0 <? minutes)%N then (parts ++ [(minutes, "m")])%list else parts in
  if (0 <? secs)%N || bool_decide (parts = [])
  then (parts ++ [(secs, "s")])%list else parts.

Definition formatUptime (seconds : N) : string :=
  String.concat " " (map (λ part, pretty part.1 ++ part.2) (uptime_parts seconds)).

(** The seconds a part stands for. *)
Definition part_seconds (part : N * string) : N :=
  (part.1 * (if String.eqb part.2 "d" then 86400
             else if String.eqb part.2 "h" then 3600
             else if String.eqb part.2 "m" then 60 else 1))%N.

End HubViews.

(** ** Access control, connection retries and input cleaning

    The TypeScript of the security and protocol chapters of the
    architecture documentation (unnamed/part_002). *)

Module Security.
Import MultiTenant.

(** [MultiTenantService.canAccess] *)
Definition canAccess `{Ownable T} (resource : T) (user : User) : bool :=
  if isAdmin user then true
  else if negb (Js.truthy_str (owner resource)) then true
  else match owner resource with
       | Some o => String.eqb o (username user)
       | None => false
       end.

(** *** Roles *)

Inductive Role := ADMIN | USER | VIEWER.

Record Permission := {
  p_resource : string;
  p_action : string;
  p_scope : option string
}.

Definition ROLE_PERMISSIONS (role : Role) : list Permission :=
  match role with
  | ADMIN => [ {| p_resource := "*"; p_action := "*"; p_scope := None |} ]
  | USER =>
      [ {| p_resource := "servers"; p_action := "read"; p_scope := None |};
        {| p_resource := "servers"; p_action := "write"; p_scope := Some "owned" |};
        {| p_resource := "groups"; p_action := "read"; p_scope := None |};
        {| p_resource := "groups"; p_action := "write"; p_scope := Some "owned" |};
        {| p_resource := "tools"; p_action := "execute"; p_scope := None |} ]
  | VIEWER =>
      [ {| p_resource := "servers"; p_action := "read"; p_scope := None |};
        {| p_resource := "groups"; p_action := "read"; p_scope := None |} ]
  end.

(** The user of a request, as [authorize] reads it. *)
Record AuthUser := {
  au_isAdmin : bool;
  au_role : Role
}.

(** [checkPermission]; at type [Role] the table has an entry for every
    role, so the fallback [|| []] is never taken. *)
Definition checkPermission (user : AuthUser) (resource action : string) : bool :=
  existsb (λ p, (String.eqb (p_resource p) "*" || String.eqb (p_resource p) resource)
                && (String.eqb (p_action p) "*" || String.eqb (p_action p) action))
          (ROLE_PERMISSIONS (au_role user)).

(** What the middleware does with the request. *)
Inductive Verdict :=
| Next
| Status401 (error : string)
| Status403 (error required : string).

Definition authorize (resource action : string) (user : option AuthUser) : Verdict :=
  match user with
  | None => Status401 "Not authenticated"
  | Some user =>
      if au_isAdmin user then Next
      else if negb (checkPermission user resource action)
      then Status403 "Insufficient permissions" (action ++ ":" ++ resource)
      else Next
  end.

(** *** Tokens *)

Record Request := {
  authorization : option string;    (* req.headers.authorization *)
  query_token : option string;      (* req.query.token *)
  cookie_token : option string      (* req.cookies?.token *)
}.

(** [s.substring(n)] *)
Fixpoint substring_from (n : nat) (s : string) : string :=
  match n, s with
  | O, _ => s
  | S n', String _ t => substring_from n' t
  | S _, EmptyString => EmptyString
  end.

Definition extractToken (req : Request) : option string :=
  match authorization req with
  | Some authHeader =>
      if String.prefix "Bearer " authHeader
      then Some (substring_from 7 authHeader)
      else if Js.truthy_str (query_token req) then query_token req
      else if Js.truthy_str (cookie_token req) then cookie_token req
      else None
  | None =>
      if Js.truthy_str (query_token req) then query_token req
      else if Js.truthy_str (cookie_token req) then cookie_token req
      else None
  end.

(** *** Cleaning input *)

(** [s.replace(/c/g, by)] for a single character [c]. *)
Fixpoint replace_char (c : Ascii.ascii) (by_ : string) (s : string) : string :=
  match s with
  | EmptyString => EmptyString
  | String x t =>
      if Ascii.eqb x c then by_ ++ replace_char c by_ t
      else String x (replace_char c by_ t)
  end.

Definition lt_char : Ascii.ascii := Ascii.ascii_of_nat 60.
Definition gt_char : Ascii.ascii := Ascii.ascii_of_nat 62.
Definition dq_char : Ascii.ascii := Ascii.ascii_of_nat 34.
Definition sq_char : Ascii.ascii := Ascii.ascii_of_nat 39.
Definition slash_char : Ascii.ascii := Ascii.ascii_of_nat 47.

Definition sanitizeInput (input : string) : string :=
  replace_char slash_char "&#x2F;"
    (replace_char sq_char "&#x27;"
       (replace_char dq_char "&quot;"
          (replace_char gt_char "&gt;"
             (replace_char lt_char "&lt;" input)))).

(** The five characters that [sanitizeInput] replaces. *)
Definition special_chars : list Ascii.ascii :=
  [lt_char; gt_char; dq_char; sq_char; slash_char].

(** The characters of a string. *)
Fixpoint chars (s : string) : list Ascii.ascii :=
  match s with
  | EmptyString => []
  | String x t => x :: chars t
  end.

(** *** Connecting with retries: [McpConnection] *)

Inductive ConnectionStatus :=
| disconnected | connecting | initializing | connected | reconnecting.

(** How one pass through the [try] block of [connect] ends. *)
Inductive Attempt :=
| TransportFails (error : string)     (* [transport.connect()] rejects *)
| InitializeFails (error : string)    (* [initialize()] rejects *)
| Connects.

Record McpConnection := {
  status : ConnectionStatus;
  retryCount : nat;
  attempts : nat;           (* passes through the [try] block so far *)
  slept : list nat;         (* the delays of [sleep], in milliseconds *)
  keepAlives : nat          (* calls of [setupKeepAlive] *)
}.

Definition maxRetries : nat := 3.

(** How [connect] settles. *)
Inductive Settled :=
| Resolved
| Rejected (error : string).

(** [connect], with [handleConnectionError] inlined at its one call;
    [outcome n] says how the [n]-th pass through the [try] block ends.
    The result is [None] when the fuel runs out before [connect]
    settles. *)
Fixpoint connect (fuel : nat) (outcome : nat → Attempt) (c : McpConnection)
  : option (Settled * McpConnection) :=
  match fuel with
  | O => None
  | S fuel' =>
      let failed (error : string) :=
        if (retryCount c <? maxRetries)%nat
        then connect fuel' outcome
               {| status := reconnecting;
                  retryCount := S (retryCount c);
                  attempts := S (attempts c);
                  slept := (slept c ++ [2 ^ S (retryCount c) * 1000])%list;
                  keepAlives := keepAlives c |}
        else Some (Rejected error,
                   {| status := disconnected;
                      retryCount := retryCount c;
                      attempts := S (attempts c);
                      slept := slept c;
                      keepAlives := keepAlives c |}) in
      match outcome (attempts c) with
      | Connects =>
          Some (Resolved,
                {| status := connected;
                   retryCount := 0;
                   attempts := S (attempts c);
                   slept := slept c;
                   keepAlives := S (keepAlives c) |})
      | TransportFails error => failed error
      | InitializeFails error => failed error
      end
  end.

(** A connection that has not been used. *)
Definition fresh : McpConnection :=
  {| status := disconnected; retryCount := 0; attempts := 0; slept := [];
     keepAlives := 0 |}.

End Security.

(** ** Batching, the threshold history and the embedding cache

    The helper classes of the smart-routing chapter
    (architecture-docs/README.md). *)

Module RoutingSupport.

(** How an [async] function ends: its promise is fulfilled, is rejected,
    or never settles. *)
Inductive Promise (A : Type) :=
| Fulfilled (value : A)
| RejectedPromise
| Pending.
Arguments Fulfilled {A} value.
Arguments RejectedPromise {A}.
Arguments Pending {A}.

(** [array.slice(i, j)] for [0 <= i <= j]. *)
Definition slice {T} (i j : nat) (array : list T) : list T :=
  take (j - i) (drop i array).

(** The loop of [BatchEmbeddingProcessor.chunk], from index [i] on;
    [None] when the fuel runs out before the loop ends. *)
Fixpoint chunk_loop {T} (fuel : nat) (array : list T) (size i : nat)
    (chunks : list (list T)) : option (list (list T)) :=
  if (i <? length array)%nat then
    match fuel with
    | O => None
    | S fuel' =>
        chunk_loop fuel' array size (i + size)
          (chunks ++ [slice i (i + size) array])%list
    end
  else Some chunks.

Definition chunk {T} (array : list T) (size : nat) : option (list (list T)) :=
  chunk_loop (length array) array size 0 [].

Definition batchSize : nat := 100.

Section Batches.

Variable Embedding : Type.

(** [openai.embeddings.create] followed by [data.map(d => d.embedding)];
    [None] when the request fails. *)
Variable create : list string → option (list Embedding).

(** The loop over the batches; [requests] are the inputs sent so far. *)
Fixpoint embed_batches (batches : list (list string))
    (results : list Embedding) (requests : list (list string))
  : Promise (list Embedding) * list (list string) :=
  match batches with
  | [] => (Fulfilled results, requests)
  | batch :: rest =>
      match create batch with
      | None => (RejectedPromise, (requests ++ [batch])%list)
      | Some data =>
          embed_batches rest (results ++ data)%list (requests ++ [batch])%list
      end
  end.

Definition processBatch (items : list string)
  : Promise (list Embedding) * list (list string) :=
  match chunk items batchSize with
  | None => (Pending, [])
  | Some batches => embed_batches batches [] []
  end.

End Batches.

(** [ThresholdManager.recordResult] *)
Definition historyWindow : nat := 100.

Definition recordResult (successHistory : list bool) (wasRelevant : bool)
  : list bool :=
  let pushed := (successHistory ++ [wasRelevant])%list in
  if (historyWindow <? length pushed)%nat then drop 1 pushed else pushed.

(** *** [EmbeddingCache] *)

Section Cache.

Variable Embedding : Type.

(** The digest [this.hash] and the call [this.generateEmbedding], which
    answers [None] when it fails. *)
Variable hash : string → string.
Variable generateEmbedding : string → option Embedding.

Record CachedEmbedding := {
  embedding : Embedding;
  timestamp : Z
}.

Record EmbeddingCache := {
  cache : gmap string CachedEmbedding;
  generated : list string        (* the texts sent to [generateEmbedding] *)
}.

Definition ttl : Z := 3600000.

(** [getEmbedding]; [now] is [Date.now()] at the look-up and [later] is
    [Date.now()] when the new entry is stored. *)
Definition getEmbedding (now later : Z) (text : string) (c : EmbeddingCache)
  : Promise Embedding * EmbeddingCache :=
  let cacheKey := hash text in
  let fresh_entry :=
    match cache c !! cacheKey with
    | Some cached =>
        if (now - timestamp cached <? ttl)%Z then Some cached else None
    | None => None
    end in
  match fresh_entry with
  | Some cached => (Fulfilled (embedding cached), c)
  | None =>
      let c1 := {| cache := cache c;
                   generated := (generated c ++ [text])%list |} in
      match generateEmbedding text with
      | None => (RejectedPromise, c1)
      | Some e =>
          (Fulfilled e,
           {| cache := <[cacheKey := {| embedding := e; timestamp := later |}]>
                         (cache c1);
              generated := generated c1 |})
      end
  end.

End Cache.

Arguments embedding {Embedding} _.
Arguments timestamp {Embedding} _.
Arguments cache {Embedding} _.
Arguments generated {Embedding} _.

End RoutingSupport.

(** ** Reading a chunked response

    [StreamProcessor] of architecture-docs/04-data-flow.md. *)

Module Streaming.

Definition newline : Ascii.ascii := Ascii.ascii_of_nat 10.

(** Puts a character in front of the first piece. *)
Definition prepend (c : Ascii.ascii) (pieces : list string) : list string :=
  match pieces with
  | piece :: rest => String c piece :: rest
  | [] => [String c EmptyString]
  end.

(** [s.split('\n\n')]: the pieces between the occurrences of two
    newlines, found from the left. *)
Fixpoint split (s : string) : list string :=
  match s with
  | EmptyString => [EmptyString]
  | String c t =>
      match t with
      | String c' t' =>
          if Ascii.eqb c newline && Ascii.eqb c' newline
          then EmptyString :: split t'
          else prepend c (split t)
      | EmptyString => prepend c (split t)
      end
  end.

Section Processor.

(** The parsed data, and [JSON.parse], which answers [None] where it
    throws. *)
Variable Data : Type.
Variable parse : string → option Data.

Record StreamProcessor := {
  buffer : string;
  handled : list Data       (* the arguments of [handleMessage], in order *)
}.

(** The loop over the complete messages: [false] when [JSON.parse]
    throws, which ends the loop. *)
Fixpoint handle_messages (messages : list string) (handled : list Data)
  : bool * list Data :=
  match messages with
  | [] => (true, handled)
  | message :: rest =>
      if String.prefix "data: " message then
        match parse (Security.substring_from 6 message) with
        | Some data => handle_messages rest (handled ++ [data])%list
        | None => (false, handled)
        end
      else handle_messages rest handled
  end.

(** [processChunk]; the boolean is [false] when it throws. *)
Definition processChunk (chunk : string) (sp : StreamProcessor)
  : bool * StreamProcessor :=
  let pieces := split (buffer sp ++ chunk) in
  let messages := removelast pieces in
  let buffer' := default EmptyString (last pieces) in
  let '(completed, handled') := handle_messages messages (handled sp) in
  (completed, {| buffer := buffer'; handled := handled' |}).

(** Feeding the chunks one after the other, up to the first throw. *)
Fixpoint processChunks (chunks : list string) (sp : StreamProcessor)
  : bool * StreamProcessor :=
  match chunks with
  | [] => (true, sp)
  | chunk :: rest =>
      match processChunk chunk sp with
      | (true, sp') => processChunks rest sp'
      | (false, sp') => (false, sp')
      end
  end.

End Processor.

Arguments buffer {Data} _.
Arguments handled {Data} _.

End Streaming.

(** ** More sample data *)

Module CoverageSamples.
Import Hub Samples.

(** [add_server { name: 'cat', command: '/bin/cat' }] *)
Definition add_cat_args : Args :=
  {| a_name := Some "cat"; a_command := Some "/bin/cat"; a_args := None;
     a_env := None; a_type := None; a_url := None; a_enabled := None;
     a_includeDisabled := None; a_server := None; a_toolName := None;
     a_includeSecrets := None; a_config := empty_settings;
     a_validate := None; a_merge := None |}.

(** Arguments that set [includeDisabled] only. *)
Definition listing_args (includeDisabled : option bool) : Args :=
  {| a_name := None; a_command := None; a_args := None; a_env := None;
     a_type := None; a_url := None; a_enabled := None;
     a_includeDisabled := includeDisabled; a_server := None;
     a_toolName := None; a_includeSecrets := None;
     a_config := empty_settings; a_validate := None; a_merge := None |}.

(** Server A as a hand-written settings file has it: no [enabled] field
    and no tool overlay. *)
Definition unflagged_server : ServerConfig :=
  {| command := Some "/bin/cat"; args := None; env := None;
     type := Some "stdio"; url := None; enabled := None; tools := None |}.

Definition unflagged_settings : Settings :=
  settings_with {[ "A" := unflagged_server ]}.

(** Server A of [overlay_settings]. *)
Definition overlay_server : ServerConfig :=
  stdio_server (Some "/bin/cat")
    {[ "weather" := {| tc_enabled := None; tc_description := Some "" |};
       "nuke" := {| tc_enabled := Some false; tc_description := None |} ]}.

(** An upstream that refuses every connection. *)
Definition always_refused : nat → Security.Attempt :=
  λ _, Security.TransportFails "refused".

(** The connection after four refused passes. *)
Definition given_up : Security.McpConnection :=
  {| Security.status := Security.disconnected;
     Security.retryCount := 3;
     Security.attempts := 4;
     Security.slept := map (λ i, 2 ^ i * 1000)%nat [1; 2; 3]%nat;
     Security.keepAlives := 0 |}.

(** A generator that answers with the length of the text, and the
    identity as digest. *)
Definition length_embedding : string → option nat :=
  λ text, Some (String.length text).

Definition plain_digest : string → string := λ text, text.

Definition empty_cache : RoutingSupport.EmbeddingCache nat :=
  {| RoutingSupport.cache := ∅; RoutingSupport.generated := [] |}.

(** A search with the defaults and a stricter one. *)
Definition strict_options : option VectorSearch.SearchOptions :=
  Some {| VectorSearch.threshold := Some (9 # 10);
          VectorSearch.limit := Some 1%nat |}.

End CoverageSamples.

(** * Theorems *)

(** ** Facts about the JavaScript operators *)

Module JsFacts.

Lemma truthy_str_spec (s : option string) :
  Js.truthy_str s = true ↔ ∃ v, s = Some v ∧ v ≠ "".
Proof.
  destruct s as [v|]; simpl.
  - rewrite negb_true_iff, String.eqb_neq. split.
    + intros Hne. by exists v.
    + by intros (? & [= <-] & Hne).
  - split; [done|]. by intros (? & ? & _).
Qed.

Lemma not_false_spec (b : option bool) :
  Js.not_false b = true ↔ b = None ∨ b = Some true.
Proof.
  destruct b as [[]|]; simpl; split; try done; try (by left); try (by right).
  by intros [?|?].
Qed.

Lemma or_str_spec (a b : option string) :
  Js.or_str a b = match a with
                  | Some v => if String.eqb v "" then b else Some v
                  | None => b
                  end.
Proof.
  unfold Js.or_str, Js.truthy_str. destruct a as [v|]; [|done].
  by destruct (String.eqb v "").
Qed.

Lemma prefix_spec (sub s : string) :
  String.prefix sub s = true ↔ ∃ post, s = sub ++ post.
Proof.
  revert s. induction sub as [|c sub IH]; intros [|c' s]; simpl.
  - split; [by exists EmptyString|done].
  - split; [by exists (String c' s)|done].
  - split; [done|by intros [? ?]].
  - destruct (Ascii.ascii_dec c c') as [->|Hne].
    + rewrite IH. split; intros [post Hp]; exists post.
      * by rewrite Hp.
      * by injection Hp.
    + split; [done|]. intros [post Hp]. injection Hp as Hc _. by symmetry in Hc.
Qed.

(** [s.includes(sub)] holds exactly when [sub] occurs in [s]. *)
Lemma includes_spec (s sub : string) :
  Js.includes s sub = true ↔ ∃ pre post, s = pre ++ sub ++ post.
Proof.
  induction s as [|c s IH].
  - cbn [Js.includes]. rewrite orb_false_r, prefix_spec. split.
    + intros [post Hp]. by exists EmptyString, post.
    + intros ([|? pre] & post & Hs); [by exists post|done].
  - cbn [Js.includes]. rewrite orb_true_iff, prefix_spec, IH. split.
    + intros [[post Hp]|(pre & post & ->)].
      * by exists EmptyString, post.
      * by exists (String c pre), post.
    + intros ([|c' pre] & post & Hs).
      * left. by exists post.
      * right. injection Hs as <- ->. by exists pre, post.
Qed.

End JsFacts.

(** ** Facts about the similarity query *)

Section VectorSearchFacts.
Import VectorSearch.

Context (calculateRelevance : RawResult → option SearchOptions → Q).

Local Abbreviation processResults := (VectorSearch.processResults calculateRelevance).
Local Abbreviation searchTools := (VectorSearch.searchTools calculateRelevance).
Local Abbreviation sim := r_similarity.
Local Abbreviation desc := (StronglySorted (λ a b : RawResult, (sim b <= sim a)%Q)).

Lemma Qgtb_lt (a b : Q) : Qgtb a b = true ↔ (b < a)%Q.
Proof.
  unfold Qgtb. rewrite (Qgt_alt a b).
  destruct (Qcompare a b); split; congruence.
Qed.

Lemma Qle_bool_false (a b : Q) : Qle_bool a b = false → (b < a)%Q.
Proof.
  intros H. apply Qnot_le_lt. intros Hle.
  apply Qle_bool_iff in Hle. congruence.
Qed.

Lemma insert_desc_perm (r : RawResult) (l : list RawResult) :
  insert_desc r l ≡ₚ r :: l.
Proof.
  induction l as [|x xs IH]; simpl; [done|].
  destruct (Qle_bool (sim x) (sim r)); [done|].
  rewrite IH. apply Permutation_swap.
Qed.

Lemma order_by_perm (l : list RawResult) : order_by_similarity_desc l ≡ₚ l.
Proof.
  induction l as [|x xs IH]; simpl; [done|].
  by rewrite insert_desc_perm, IH.
Qed.

Lemma insert_desc_sorted (r : RawResult) (l : list RawResult) :
  desc l → desc (insert_desc r l).
Proof.
  induction 1 as [|x xs Hs IH Hx]; simpl.
  - repeat constructor.
  - destruct (Qle_bool (sim x) (sim r)) eqn:E.
    + apply Qle_bool_iff in E. constructor; [by constructor|].
      constructor; [done|].
      eapply Forall_impl; [exact Hx|]. simpl. intros y Hy.
      by eapply Qle_trans.
    + apply Qle_bool_false, Qlt_le_weak in E. constructor; [done|].
      rewrite insert_desc_perm. by constructor.
Qed.

Lemma order_by_sorted (l : list RawResult) : desc (order_by_similarity_desc l).
Proof.
  induction l; simpl; [constructor|by apply insert_desc_sorted].
Qed.

(** Inserting in front of rows that do not score higher. *)
Lemma insert_desc_front (r : RawResult) (l : list RawResult) :
  Forall (λ y, (sim y <= sim r)%Q) l → insert_desc r l = r :: l.
Proof.
  destruct 1 as [|x xs Hx _]; simpl; [done|].
  apply Qle_bool_iff in Hx. by rewrite Hx.
Qed.

Lemma Forall_filter_bool {A} (P : A → Prop) (p : A → bool) (l : list A) :
  Forall P l → Forall P (List.filter p l).
Proof.
  induction 1; simpl; [constructor|]. destruct (p x); [by constructor|done].
Qed.

Lemma filter_bool_none {A} (p : A → bool) (l : list A) :
  Forall (λ y, p y = false) l → List.filter p l = [].
Proof. induction 1 as [|x xs Hx _ IH]; simpl; [done|]. by rewrite Hx. Qed.

(** A stable sort commutes with selection. *)
Lemma filter_insert_desc (p : RawResult → bool) (r : RawResult) (l : list RawResult) :
  desc l →
  List.filter p (insert_desc r l) =
    if p r then insert_desc r (List.filter p l) else List.filter p l.
Proof.
  induction 1 as [|x xs Hs IH Hx]; simpl.
  - by destruct (p r).
  - destruct (Qle_bool (sim x) (sim r)) eqn:E; simpl.
    + destruct (p r); [|done].
      symmetry. apply (insert_desc_front r (List.filter p (x :: xs))).
      apply Forall_filter_bool. apply Qle_bool_iff in E.
      constructor; [done|].
      eapply Forall_impl; [exact Hx|]. simpl. intros y Hy.
      by eapply Qle_trans.
    + rewrite IH. destruct (p x), (p r); simpl; try done.
      by rewrite E.
Qed.

Lemma order_by_filter (p : RawResult → bool) (l : list RawResult) :
  order_by_similarity_desc (List.filter p l) =
    List.filter p (order_by_similarity_desc l).
Proof.
  induction l as [|x xs IH]; simpl; [done|].
  rewrite filter_insert_desc by apply order_by_sorted.
  destruct (p x); simpl; by rewrite IH.
Qed.

(** On a descending list a lower bound on the score selects a prefix, so
    it commutes with LIMIT. *)
Lemma take_filter_desc (th : Q) (k : nat) (l : list RawResult) :
  desc l →
  take k (List.filter (where_clause th) l) =
    List.filter (where_clause th) (take k l).
Proof.
  intros Hs. revert k. induction Hs as [|x xs Hs IH Hx]; intros k.
  - by destruct k.
  - simpl. destruct (where_clause th x) eqn:E.
    + destruct k; simpl; [done|]. by rewrite E, IH.
    + assert (Hnone : ∀ m, List.filter (where_clause th) (take m xs) = []).
      { intros m. apply filter_bool_none.
        apply Forall_forall. intros y Hy.
        destruct (where_clause th y) eqn:Ey; [|done].
        apply elem_of_take in Hy as (i & Hi & _).
        apply list_elem_of_lookup_2 in Hi.
        rewrite Forall_forall in Hx. specialize (Hx y Hi). simpl in Hx.
        apply Qgtb_lt in Ey.
        assert (Qgtb (sim x) th = true) as Hc
          by (apply Qgtb_lt; by eapply Qlt_le_trans).
        unfold where_clause in E. congruence. }
      specialize (Hnone (length xs)) as Hall. rewrite firstn_all in Hall.
      rewrite Hall. destruct k; simpl; [done|]. by rewrite E, Hnone.
Qed.

(** The query as the specification reads it, with the comparison the
    query text has: rank, take [limit], keep scores above the threshold. *)
Lemma performSearch_top_k (table : list EmbeddingRow) (options : option SearchOptions) :
  performSearch table options =
    List.filter (where_clause (default default_threshold (options ≫= threshold)))
      (top_k (default default_limit (options ≫= limit)) table).
Proof.
  unfold performSearch, top_k, ranked.
  rewrite order_by_filter. apply take_filter_desc, order_by_sorted.
Qed.

Lemma elem_of_filter_bool {A} (p : A → bool) (x : A) (l : list A) :
  x ∈ List.filter p l ↔ x ∈ l ∧ p x = true.
Proof. rewrite !list_elem_of_In. apply List.filter_In. Qed.

Lemma where_clause_above_one (e : EmbeddingRow) :
  (0 <= cosine_distance e)%Q → where_clause 1 (select_row e) = false.
Proof.
  intros Hd. destruct (where_clause 1 (select_row e)) eqn:E; [|done].
  apply Qgtb_lt in E. simpl in E.
  lra.
Qed.


Lemma desc_processResults (l : list RawResult) (options : option SearchOptions) :
  desc l → desc_by_confidence (processResults l options).
Proof.
  unfold desc_by_confidence, VectorSearch.processResults.
  induction 1 as [|x xs Hs IH Hx]; simpl; constructor; [done|].
  apply Forall_fmap. eapply Forall_impl; [exact Hx|]. by simpl.
Qed.

Lemma desc_take (k : nat) (l : list RawResult) : desc l → desc (take k l).
Proof.
  intros Hs. revert k. induction Hs as [|x xs Hs IH Hx]; intros [|k]; simpl;
    try constructor; [by apply IH|by apply Forall_take].
Qed.

Lemma filter_bool_take_prefix {A} (p : A → bool) (k : nat) (l : list A) :
  List.filter p (take k l) `prefix_of` List.filter p l.
Proof.
  revert k. induction l as [|x xs IH]; intros [|k]; simpl;
    try apply prefix_nil.
  destruct (p x); [by apply prefix_cons|apply IH].
Qed.

Lemma order_by_ties (c : Q) (l : list RawResult) :
  Forall (λ r, (sim r == c)%Q) l → order_by_similarity_desc l = l.
Proof.
  induction 1 as [|x xs Hx Hxs IH]; simpl; [done|].
  rewrite IH. apply insert_desc_front.
  eapply Forall_impl; [exact Hxs|]. simpl. intros y Hy.
  rewrite Hx, Hy. apply Qle_refl.
Qed.

Lemma filter_bool_comm {A} (p q : A → bool) (l : list A) :
  List.filter p (List.filter q l) = List.filter q (List.filter p l).
Proof.
  induction l as [|x xs IH]; simpl; [done|].
  destruct (p x) eqn:Ep, (q x) eqn:Eq; simpl; rewrite ?Ep, ?Eq, IH; done.
Qed.

Lemma filter_bool_prefix_tied (th c : Q) (l : list RawResult) :
  Forall (λ r, (sim r == c)%Q) l →
  List.filter (where_clause th) l `prefix_of` l.
Proof.
  intros Hl. destruct (Qgtb c th) eqn:E.
  - assert (List.filter (where_clause th) l = l) as ->; [|done].
    induction Hl as [|x xs Hx _ IH]; simpl; [done|].
    assert (where_clause th x = true) as ->.
    { apply Qgtb_lt. rewrite Hx. by apply Qgtb_lt. }
    by rewrite IH.
  - rewrite filter_bool_none; [apply prefix_nil|].
    eapply Forall_impl; [exact Hl|]. simpl. intros y Hy.
    destruct (where_clause th y) eqn:Ey; [|done].
    apply Qgtb_lt in Ey. rewrite Hy in Ey. apply Qgtb_lt in Ey. congruence.
Qed.

Lemma filter_processResults (c : Q) (l : list RawResult)
    (options : option SearchOptions) :
  List.filter (λ s, Qeq_bool (confidence s) c) (processResults l options) =
    processResults (List.filter (λ r, Qeq_bool (sim r) c) l) options.
Proof.
  unfold VectorSearch.processResults. induction l as [|x xs IH]; simpl; [done|].
  destruct (Qeq_bool (sim x) c); simpl; by rewrite IH.
Qed.

Lemma prefix_processResults (l1 l2 : list RawResult)
    (options : option SearchOptions) :
  l1 `prefix_of` l2 →
  processResults l1 options `prefix_of` processResults l2 options.
Proof.
  intros [k ->]. unfold VectorSearch.processResults. rewrite map_app. by eexists.
Qed.


End VectorSearchFacts.

Section VectorSearchSamples.
Import VectorSearch.




End VectorSearchSamples.

(** ** Facts about the visibility filter *)

Section MultiTenantFacts.
Import MultiTenant.
Context `{Ownable T}.

Lemma no_owner_spec (item : T) :
  no_owner item = true ↔ owner item = None ∨ owner item = Some "".
Proof.
  unfold no_owner, Js.truthy_str. destruct (owner item) as [o|]; simpl.
  - rewrite negb_true_iff, negb_false_iff, String.eqb_eq.
    split; [intros ->; by right|intros [?|?]; congruence].
  - split; [by left|done].
Qed.

Lemma owned_by_spec (item : T) (user : User) :
  owned_by item user = true ↔ owner item = Some (username user).
Proof.
  unfold owned_by. destruct (owner item) as [o|]; [|done].
  rewrite String.eqb_eq. split; congruence.
Qed.


End MultiTenantFacts.


(** ** Facts about the hub-management tools *)

Section HubFacts.
Import Hub.
Context (connect : Settings → gmap string Client).
Context (collaborator_case : string → Args → M ToolResult).
Context (stringify : ToolResult → string).

Local Abbreviation executeTool := (Hub.executeTool connect collaborator_case).
Local Abbreviation callTool := (Hub.callTool connect collaborator_case stringify).

Lemma lookup_servers (s : Settings) (name : string) :
  default ∅ (mcpServers s) !! name = server_of s name.
Proof. unfold server_of. by destruct (mcpServers s). Qed.

Lemma elem_of_server_entries (s : Settings) (name : string) (c : ServerConfig) :
  (name, c) ∈ server_entries s ↔ server_of s name = Some c.
Proof. unfold server_entries. by rewrite elem_of_map_to_list, lookup_servers. Qed.

Lemma elem_of_flat_map {A B} (f : A → list B) (l : list A) (y : B) :
  y ∈ flat_map f l ↔ ∃ x, x ∈ l ∧ y ∈ f x.
Proof.
  rewrite list_elem_of_In, in_flat_map.
  by setoid_rewrite list_elem_of_In.
Qed.

(** What ends up in [allTools]. *)
Lemma elem_of_allTools (a : Args) (s : Settings) (cs : gmap string Client) (e : ToolEntry) :
  e ∈ flat_map (tools_of_server a cs) (server_entries s) ↔
  ∃ name c tool,
    server_of s name = Some c
    ∧ server_skipped a name c = false
    ∧ tool ∈ reported_tools (cs !! name)
    ∧ tool_enabled c (t_name tool) || Js.truthy_bool (a_includeDisabled a) = true
    ∧ e = tool_entry name c tool.
Proof.
  rewrite elem_of_flat_map. split.
  - intros ([name c] & Hs & He). apply elem_of_server_entries in Hs.
    unfold tools_of_server in He. simpl in He.
    destruct (server_skipped a name c) eqn:Hskip; [by apply not_elem_of_nil in He|].
    apply list_elem_of_fmap in He as (tool & -> & Htool).
    apply elem_of_filter_bool in Htool as [Htool Hen].
    by exists name, c, tool.
  - intros (name & c & tool & Hs & Hskip & Htool & Hen & ->).
    exists (name, c). split; [by apply elem_of_server_entries|].
    unfold tools_of_server. simpl. rewrite Hskip.
    apply list_elem_of_fmap. exists tool. split; [done|].
    by apply elem_of_filter_bool.
Qed.

Lemma executeTool_list_all_tools (a : Args) (w : World) :
  executeTool "list_all_tools" a w =
    (Returns (RTools (flat_map (tools_of_server a (clients w))
                        (server_entries (settings_file w)))), w).
Proof. reflexivity. Qed.


(** C4 (as the code has it): the description listed for a tool is the
    operator's override when that override is a non-empty string, and the
    description reported by the upstream otherwise; an override set to the
    empty string counts as not set. *)
Theorem description_override_unless_empty (a : Args) (w : World) :
  (∀ name c tool,
      te_description (tool_entry name c tool) =
        match tool_config c (t_name tool) ≫= tc_description with
        | Some d => if String.eqb d "" then t_description tool else Some d
        | None => t_description tool
        end)
  ∧ ∃ allTools,
      executeTool "list_all_tools" a w = (Returns (RTools allTools), w)
      ∧ ∀ e, e ∈ allTools →
          ∃ c tool,
            server_of (settings_file w) (te_server e) = Some c
            ∧ tool ∈ reported_tools (clients w !! te_server e)
            ∧ t_name tool = te_name e
            ∧ te_description e =
                match tool_config c (te_name e) ≫= tc_description with
                | Some d => if String.eqb d "" then t_description tool else Some d
                | None => t_description tool
                end.
Proof.
  assert (Hd : ∀ name c tool,
      te_description (tool_entry name c tool) =
        match tool_config c (t_name tool) ≫= tc_description with
        | Some d => if String.eqb d "" then t_description tool else Some d
        | None => t_description tool
        end).
  { intros name c tool. simpl. unfold effective_description.
    apply JsFacts.or_str_spec. }
  split; [exact Hd|].
  eexists. split; [apply executeTool_list_all_tools|].
  intros e (name & c & tool & Hs & _ & Htool & _ & ->)%elem_of_allTools.
  exists c, tool. by rewrite Hd.
Qed.

(** *** Rejected configurations *)

Lemma validate_servers_world (l : list (string * ServerConfig)) (w : World) :
  (validate_servers l w).2 = w.
Proof.
  induction l as [|e l IH]; simpl; [done|].
  by destruct (validate_server e).
Qed.

Lemma validate_servers_throws (l : list (string * ServerConfig)) (w : World)
    (e : string * ServerConfig) :
  e ∈ l → is_Some (validate_server e) →
  ∃ message, validate_servers l w = (Throws message, w).
Proof.
  intros He [m Hm]. induction l as [|x l IH]; [by apply not_elem_of_nil in He|].
  simpl. destruct (validate_server x) as [mx|] eqn:Hx.
  - by exists mx.
  - apply elem_of_cons in He as [->|He]; [congruence|by apply IH].
Qed.

Lemma or_default_falsy (s : option string) (d : string) :
  Js.truthy_str s = false → Js.or_default s d = d.
Proof.
  destruct s as [v|]; simpl; [|done].
  rewrite negb_false_iff. by intros ->.
Qed.

(** C5 (as the code has it): [add_server] for a stdio server (type
    [stdio], or no type) without a command throws before anything is
    written: the world afterwards is the world before, so nothing is
    saved, no server is added and no client is reinitialized, and the
    caller gets the message as an error text.  [import_configuration]
    rejects a server of type [stdio] without a command in the same way
    when it is called with [validate] set. *)
Theorem stdio_server_without_command_rejected (a : Args) (w : World) :
  (Js.or_default (a_type a) "stdio" = "stdio" →
   Js.truthy_str (a_command a) = false →
   ∃ message,
     executeTool "add_server" a w = (Throws message, w)
     ∧ callTool "add_server" a w =
         ({| content := [ {| cb_type := "text"; text := "Error: " ++ message |} ] |}, w)
     ∧ (server_of (settings_file w) (Js.to_key (a_name a)) = None →
        message = "Command is required for stdio servers"))
  ∧ (Js.truthy_bool (a_validate a) = true →
     ∀ name c,
       server_of (a_config a) name = Some c →
       type c = Some "stdio" →
       Js.truthy_str (command c) = false →
       ∃ message,
         executeTool "import_configuration" a w = (Throws message, w)
         ∧ callTool "import_configuration" a w =
             ({| content := [ {| cb_type := "text"; text := "Error: " ++ message |} ] |},
              w)).
Proof.
  split.
  - intros Htype Hcmd.
    assert (∃ message, add_server connect a w = (Throws message, w)
              ∧ (server_of (settings_file w) (Js.to_key (a_name a)) = None →
                 message = "Command is required for stdio servers"))
      as (message & Hex & Hmsg).
    { unfold add_server, bind, loadSettings. simpl.
      case_bool_decide as Hex.
      - eexists. split; [reflexivity|]. intros Hnone.
        rewrite Hnone in Hex. by destruct Hex.
      - unfold is_type at 1. simpl.
        rewrite Htype, (or_default_falsy _ _ Hcmd). simpl. by eexists. }
    exists message. split; [exact Hex|]. split; [|exact Hmsg].
    unfold Hub.callTool.
    change (Hub.executeTool connect collaborator_case "add_server" a w)
      with (add_server connect a w).
    by rewrite Hex.
  - intros Hval name c Hs Htype Hcmd.
    assert (∃ message, import_configuration a w = (Throws message, w))
      as (message & Hex).
    { unfold import_configuration, bind. rewrite Hval.
      assert (is_Some (mcpServers (a_config a))) as Hsome.
      { unfold server_of in Hs. by destruct (mcpServers (a_config a)). }
      rewrite (bool_decide_eq_true_2 _ Hsome). simpl.
      destruct (validate_servers_throws (server_entries (a_config a)) w (name, c))
        as (message & ->).
      - by apply elem_of_server_entries.
      - unfold validate_server, is_type. simpl. rewrite Htype, Hcmd. simpl. by eexists.
      - by exists message. }
    exists message. split; [exact Hex|].
    unfold Hub.callTool.
    change (Hub.executeTool connect collaborator_case "import_configuration" a w)
      with (import_configuration a w).
    by rewrite Hex.
Qed.

(** *** Tool overlay and reconnection *)

Lemma lookup_tools (c : ServerConfig) (t : string) :
  default ∅ (tools c) !! t = tool_config c t.
Proof. unfold tool_config. by destruct (tools c). Qed.

Lemma server_of_set_server (s : Settings) (n n' : string) (c : ServerConfig) :
  server_of (set_server s n c) n' = if decide (n = n') then Some c else server_of s n'.
Proof.
  unfold set_server, with_mcpServers, server_of at 1. simpl.
  by rewrite lookup_insert, lookup_servers.
Qed.


(** *** The public interface *)

Lemma collaborator_cases_are_tools (name : string) :
  name ∈ collaborator_cases → name ∈ tool_names.
Proof.
  unfold collaborator_cases. intros Hc.
  repeat (apply elem_of_cons in Hc as [->|Hc];
          [by apply (bool_decide_unpack _); vm_compute|]).
  by apply not_elem_of_nil in Hc.
Qed.

Lemma executeTool_unknown (name : string) (a : Args) (w : World) :
  name ∉ tool_names →
  executeTool name a w = (Throws ("Unknown tool: " ++ name), w).
Proof.
  intros Hname. unfold Hub.executeTool.
  repeat match goal with
  | |- context [String.eqb name ?lit] =>
      destruct (String.eqb_spec name lit) as [->|_];
      [exfalso; apply Hname; by apply (bool_decide_unpack _); vm_compute|]
  end.
  case_bool_decide as Hc; [|done].
  exfalso. by apply Hname, collaborator_cases_are_tools.
Qed.

(** C9: for every name and every argument object [callTool] yields one
    text block, with the effects of [executeTool] and no other; what
    [executeTool] throws comes back as the text [Error: ] followed by the
    message, and a name outside the tool set as
    [Error: Unknown tool: <name>]. *)
Theorem callTool_total (name : string) (a : Args) (w : World) :
  ∃ t,
    (callTool name a w).1 = {| content := [ {| cb_type := "text"; text := t |} ] |}
    ∧ (callTool name a w).2 = (executeTool name a w).2
    ∧ (∀ message, (executeTool name a w).1 = Throws message →
                  t = "Error: " ++ message)
    ∧ (name ∉ tool_names →
       executeTool name a w = (Throws ("Unknown tool: " ++ name), w)
       ∧ t = "Error: Unknown tool: " ++ name).
Proof.
  unfold Hub.callTool.
  destruct (Hub.executeTool connect collaborator_case name a w)
    as [[result|message] w'] eqn:Hex; simpl.
  - eexists. split; [reflexivity|]. split; [done|]. split; [done|].
    intros Hname. by rewrite executeTool_unknown in Hex.
  - eexists. split; [reflexivity|]. split; [done|]. split.
    + by intros ? [= <-].
    + intros Hname. rewrite executeTool_unknown in Hex by done.
      by injection Hex as <- <-.
Qed.

(** *** Export *)

Lemma is_secret_name_spec (key : string) :
  is_secret_name key = true ↔
  ∃ kw pre post, kw ∈ ["key"; "secret"; "password"]
                 ∧ Js.toLowerCase key = pre ++ kw ++ post.
Proof.
  unfold is_secret_name. rewrite !orb_true_iff, !JsFacts.includes_spec. split.
  - intros [[(pre & post & Hk)|(pre & post & Hk)]|(pre & post & Hk)];
      eexists _, pre, post; (split; [|exact Hk]);
      repeat first [apply list_elem_of_here | apply list_elem_of_further].
  - intros (kw & pre & post & Hkw & Hk).
    repeat (apply elem_of_cons in Hkw as [->|Hkw]; [eauto 6|]).
    by apply not_elem_of_nil in Hkw.
Qed.

Lemma lookup_redact_env (e : gmap string string) (key : string) :
  redact_env e !! key =
    (λ value, if is_secret_name key then REDACTED else value) <$> e !! key.
Proof.
  unfold redact_env. rewrite map_lookup_imap. by destruct (e !! key).
Qed.

Lemma server_of_redact (s : Settings) (name : string) :
  server_of (redact s) name = redact_server <$> server_of s name.
Proof.
  unfold server_of, redact. simpl. destruct (mcpServers s) as [m|]; simpl; [|done].
  by rewrite lookup_fmap.
Qed.

Lemma redact_env_variant (e1 e2 : gmap string string) :
  env_variant e1 e2 → redact_env e1 = redact_env e2.
Proof.
  intros He. apply map_eq. intros key. rewrite !lookup_redact_env.
  specialize (He key). destruct (is_secret_name key).
  - destruct (e1 !! key), (e2 !! key); simpl; try done.
    + destruct He as [He _]. by destruct He.
    + destruct He as [_ He]. by destruct He.
  - by rewrite He.
Qed.

Lemma redact_server_variant (c1 c2 : ServerConfig) :
  server_variant c1 c2 → redact_server c1 = redact_server c2.
Proof.
  destruct c1, c2. unfold server_variant, redact_server. simpl.
  intros (-> & -> & -> & -> & -> & -> & He).
  f_equal. destruct He as [e1 e2 He|]; simpl; [|done].
  by rewrite (redact_env_variant e1 e2).
Qed.

Lemma redact_smartRouting_variant (sr1 sr2 : SmartRouting) :
  smartRouting_variant set_key sr1 sr2 →
  redact_smartRouting sr1 = redact_smartRouting sr2.
Proof.
  destruct sr1, sr2. unfold smartRouting_variant, redact_smartRouting, set_key.
  simpl. intros (-> & -> & [->|[-> ->]]); done.
Qed.

Lemma redact_variant (s1 s2 : Settings) :
  settings_variant set_key s1 s2 → redact s1 = redact s2.
Proof.
  destruct s1, s2. unfold settings_variant, redact. simpl.
  intros (-> & -> & -> & Hsr & Hm). f_equal.
  - destruct Hm as [m1 m2 Hm|]; simpl; [|done]. f_equal.
    apply map_eq. intros name. rewrite !lookup_fmap.
    destruct (Hm name) as [c1 c2 Hc|]; simpl; [|done].
    by rewrite (redact_server_variant c1 c2).
  - destruct Hsr as [sr1 sr2 Hsr|]; simpl; [|done].
    by rewrite (redact_smartRouting_variant sr1 sr2).
Qed.

(** C10 (as the code has it): without [includeSecrets] the export shows
    [***REDACTED***] for [smartRouting.openaiApiKey] when that key is set
    to a non-empty string, and for every environment variable of every
    server whose lower-cased name contains [key], [secret] or [password];
    two settings that differ only in such values, with the API key
    non-empty in both (or the same in both), export to the same
    configuration. *)
Theorem export_hides_secrets (a : Args) (w : World) :
  Js.truthy_bool (a_includeSecrets a) = false →
  ∃ out,
    executeTool "export_configuration" a w = (Returns (RConfig out), w)
    ∧ (∀ sr, smartRouting (settings_file w) = Some sr →
             Js.truthy_str (openaiApiKey sr) = true →
             smartRouting out ≫= openaiApiKey = Some REDACTED)
    ∧ (∀ name c e key value kw pre post,
         server_of out name = Some c → env c = Some e → e !! key = Some value →
         kw ∈ ["key"; "secret"; "password"] →
         Js.toLowerCase key = pre ++ kw ++ post →
         value = REDACTED)
    ∧ (∀ w2, settings_variant set_key (settings_file w) (settings_file w2) →
             executeTool "export_configuration" a w2 = (Returns (RConfig out), w2)).
Proof.
  intros Hinc. exists (redact (settings_file w)).
  assert (Hex : ∀ w0, executeTool "export_configuration" a w0
                      = (Returns (RConfig (redact (settings_file w0))), w0)).
  { intros w0.
    change (Hub.executeTool connect collaborator_case "export_configuration" a w0)
      with (export_configuration a w0).
    unfold export_configuration, bind, loadSettings. simpl. by rewrite Hinc. }
  split; [apply Hex|]. split; [|split].
  - intros sr Hsr Hkey. unfold redact. simpl. rewrite Hsr. simpl.
    unfold redact_smartRouting. by rewrite Hkey.
  - intros name c e key value kw pre post Hs He Hkey Hkw Hk.
    rewrite server_of_redact in Hs.
    destruct (server_of (settings_file w) name) as [c0|]; [|done].
    injection Hs as <-. simpl in He.
    destruct (env c0) as [e0|]; [|done]. injection He as <-.
    rewrite lookup_redact_env in Hkey.
    assert (is_secret_name key = true) as Hsec
      by (apply is_secret_name_spec; eauto).
    rewrite Hsec in Hkey. destruct (e0 !! key); [|done]. by injection Hkey as <-.
  - intros w2 Hv. rewrite Hex. by rewrite (redact_variant _ _ Hv).
Qed.

End HubFacts.

(** ** The facts at sample inputs *)

Section HubSamples.
Import Hub Samples.

Local Abbreviation executeTool := (Hub.executeTool no_connect no_collaborator).
Local Abbreviation callTool := (Hub.callTool no_connect no_collaborator no_stringify).


(** C4 as stated fails: the override of [weather] is set, to the empty
    string, and the description listed is the upstream's. *)
Lemma empty_override_is_ignored :
  tool_config (stdio_server (Some "/bin/cat")
                 {[ "weather" := {| tc_enabled := None; tc_description := Some "" |} ]})
    "weather" ≫= tc_description = Some ""
  ∧ executeTool "list_all_tools" no_args (world_of overlay_settings)
    = (Returns (RTools [ {| te_server := "A"; te_name := "weather";
                            te_description := Some "Get current weather for a city";
                            te_enabled := true;
                            te_customDescription := false |} ]),
       world_of overlay_settings).
Proof. split; reflexivity. Qed.

Lemma stdio_server_without_command_rejected_witness :
  executeTool "add_server" add_echo_args (world_of empty_settings)
  = (Throws "Command is required for stdio servers", world_of empty_settings)
  ∧ ∃ message,
      executeTool "import_configuration" (import_args broken_config (Some true))
        (world_of empty_settings)
      = (Throws message, world_of empty_settings).
Proof.
  split.
  - destruct (stdio_server_without_command_rejected no_connect no_collaborator
                no_stringify add_echo_args (world_of empty_settings))
      as [Hadd _].
    destruct (Hadd eq_refl eq_refl) as (message & Hex & _ & Hmsg).
    by rewrite <- (Hmsg eq_refl).
  - destruct (stdio_server_without_command_rejected no_connect no_collaborator
                no_stringify (import_args broken_config (Some true))
                (world_of empty_settings))
      as [_ Himport].
    destruct (Himport eq_refl "echo" (stdio_server None ∅) eq_refl eq_refl eq_refl)
      as (message & Hex & _).
    by exists message.
Defined.

(** C5 as stated fails for imports: without [validate] a configuration
    with a stdio server that has no command is saved as it is. *)
Lemma import_without_validate_saves_stdio_without_command :
  server_of broken_config "echo" = Some (stdio_server None ∅)
  ∧ type (stdio_server None ∅) = Some "stdio"
  ∧ command (stdio_server None ∅) = None
  ∧ executeTool "import_configuration" (import_args broken_config None)
      (world_of empty_settings)
    = (Returns (RStatus true "Configuration imported successfully"),
       {| settings_file := broken_config;
          clients := clients (world_of empty_settings);
          trace := [SaveSettings broken_config] |}).
Proof. repeat split; reflexivity. Qed.


Lemma callTool_total_witness :
  (callTool "drop_database" no_args (world_of empty_settings)).1
  = {| content := [ {| cb_type := "text";
                       text := "Error: Unknown tool: drop_database" |} ] |}.
Proof.
  destruct (callTool_total no_connect no_collaborator no_stringify
              "drop_database" no_args (world_of empty_settings))
    as (t & Hshape & _ & _ & Hunknown).
  rewrite Hshape. destruct Hunknown as [_ ->]; [|done].
  by apply (bool_decide_unpack _); vm_compute.
Defined.

Lemma export_hides_secrets_witness :
  ∃ out,
    executeTool "export_configuration" no_args
      (world_of (settings_with_key (Some "sk-live-1")))
    = (Returns (RConfig out), world_of (settings_with_key (Some "sk-live-1")))
    ∧ smartRouting out ≫= openaiApiKey = Some REDACTED
    ∧ executeTool "export_configuration" no_args
        (world_of (settings_with_key (Some "sk-live-2")))
      = (Returns (RConfig out), world_of (settings_with_key (Some "sk-live-2"))).
Proof.
  destruct (export_hides_secrets no_connect no_collaborator no_args
              (world_of (settings_with_key (Some "sk-live-1"))) eq_refl)
    as (out & Hex & Hkey & _ & Hvariant).
  exists out. split; [exact Hex|]. split.
  - by apply (Hkey _ eq_refl).
  - apply (Hvariant (world_of (settings_with_key (Some "sk-live-2")))).
    repeat split; [constructor; repeat split; by right|constructor].
Defined.

(** C10 as stated fails: an API key that is set to the empty string is
    exported as it is, so the export tells an empty key from a real one. *)
Lemma export_shows_empty_key :
  settings_variant any_key (settings_with_key (Some "")) (settings_with_key (Some "sk-live-1"))
  ∧ executeTool "export_configuration" no_args (world_of (settings_with_key (Some "")))
    = (Returns (RConfig (settings_with_key (Some ""))),
       world_of (settings_with_key (Some "")))
  ∧ executeTool "export_configuration" no_args
      (world_of (settings_with_key (Some "sk-live-1")))
    = (Returns (RConfig (settings_with_key (Some REDACTED))),
       world_of (settings_with_key (Some "sk-live-1")))
  ∧ settings_with_key (Some "") ≠ settings_with_key (Some REDACTED).
Proof.
  split; [|split; [reflexivity|split; [reflexivity|done]]].
  repeat split; try constructor; repeat split; try constructor; eauto.
Qed.

End HubSamples.

(** ** Facts about the embedding index *)

Section EmbeddingsFacts.
Import Embeddings.
Context (Embedder : string → option (list Q)).

Local Abbreviation upsertOne := (Embeddings.upsertOne Embedder).
Local Abbreviation upsertMany := (Embeddings.upsertMany Embedder).
Local Abbreviation syncServer := (Embeddings.syncServer Embedder).

Lemma upsertOne_unchanged (upstream : string) (ix : Index) (t : ToolInfo) :
  stored ix upstream t → upsertOne upstream ix t = ix.
Proof.
  intros (row & Hrow & Htext). unfold Embeddings.upsertOne.
  by rewrite Hrow, Htext, String.eqb_refl.
Qed.

Lemma upsertMany_unchanged (upstream : string) (batch : list ToolInfo) (ix : Index) :
  Forall (stored ix upstream) batch → upsertMany upstream batch ix = ix.
Proof.
  unfold Embeddings.upsertMany.
  induction 1 as [|t batch Ht _ IH]; simpl; [done|].
  by rewrite upsertOne_unchanged.
Qed.

Lemma embed_and_write_calls (upstream : string) (t : ToolInfo) (ix : Index) :
  embedder_calls (embed_and_write Embedder upstream t ix)
  = (embedder_calls ix ++ [tool_text t])%list.
Proof. unfold embed_and_write. by destruct (Embedder (tool_text t)). Qed.

Lemma upsertOne_calls (upstream : string) (ix : Index) (t : ToolInfo) :
  (length (embedder_calls (upsertOne upstream ix t)) ≤ S (length (embedder_calls ix)))%nat.
Proof.
  unfold Embeddings.upsertOne.
  destruct (lookup_row ix upstream (name t)) as [row|];
    [destruct (String.eqb (text row) (tool_text t)); [lia|]|];
    rewrite embed_and_write_calls, length_app; simpl; lia.
Qed.

Lemma upsertMany_calls (upstream : string) (batch : list ToolInfo) (ix : Index) :
  (length (embedder_calls (upsertMany upstream batch ix))
   ≤ length (embedder_calls ix) + length batch)%nat.
Proof.
  unfold Embeddings.upsertMany. revert ix.
  induction batch as [|t batch IH]; intros ix; simpl; [lia|].
  etrans; [apply IH|]. pose proof (upsertOne_calls upstream ix t). lia.
Qed.

Lemma lookup_row_embed_and_write (upstream : string) (t : ToolInfo) (ix : Index)
    (n : string) :
  lookup_row (embed_and_write Embedder upstream t ix) upstream n =
    match Embedder (tool_text t) with
    | Some v =>
        if decide (name t = n)
        then Some {| text := tool_text t; vector := v; updatedAt := clock ix |}
        else lookup_row ix upstream n
    | None => lookup_row ix upstream n
    end.
Proof.
  unfold embed_and_write, lookup_row.
  destruct (Embedder (tool_text t)) as [v|]; simpl; [|done].
  rewrite lookup_insert_eq. simpl. rewrite lookup_insert.
  case_decide; [done|]. by destruct (rows ix !! upstream).
Qed.

Lemma upsertOne_other (upstream : string) (ix : Index) (t : ToolInfo) (n : string) :
  name t ≠ n →
  lookup_row (upsertOne upstream ix t) upstream n = lookup_row ix upstream n.
Proof.
  intros Hne. unfold Embeddings.upsertOne.
  destruct (lookup_row ix upstream (name t)) as [row|];
    [destruct (String.eqb (text row) (tool_text t)); [done|]|];
    rewrite lookup_row_embed_and_write;
    destruct (Embedder (tool_text t)); by rewrite ?decide_False.
Qed.

Lemma upsertOne_stored (upstream : string) (ix : Index) (t : ToolInfo) :
  is_Some (Embedder (tool_text t)) → stored (upsertOne upstream ix t) upstream t.
Proof.
  intros [v Hv]. unfold stored, Embeddings.upsertOne.
  destruct (lookup_row ix upstream (name t)) as [row|] eqn:Hrow;
    [destruct (String.eqb_spec (text row) (tool_text t)); [by exists row|]|];
    rewrite lookup_row_embed_and_write, Hv, decide_True by done; by eexists.
Qed.

Lemma upsertMany_other (upstream : string) (batch : list ToolInfo) (ix : Index)
    (n : string) :
  n ∉ map name batch →
  lookup_row (upsertMany upstream batch ix) upstream n = lookup_row ix upstream n.
Proof.
  unfold Embeddings.upsertMany. revert ix.
  induction batch as [|t batch IH]; intros ix Hn; simpl; [done|].
  simpl in Hn. apply not_elem_of_cons in Hn as [Hne Hn].
  rewrite IH by done. by apply upsertOne_other.
Qed.

Lemma upsertMany_stored (upstream : string) (batch : list ToolInfo) (ix : Index) :
  NoDup (map name batch) →
  Forall (λ t, is_Some (Embedder (tool_text t))) batch →
  Forall (stored (upsertMany upstream batch ix) upstream) batch.
Proof.
  revert ix. induction batch as [|t batch IH]; intros ix Hnd Hok; [constructor|].
  simpl in Hnd. apply NoDup_cons in Hnd as [Hnotin Hnd].
  apply Forall_cons in Hok as [Ht Hok].
  change (upsertMany upstream (t :: batch) ix)
    with (upsertMany upstream batch (upsertOne upstream ix t)).
  constructor; [|by apply IH].
  destruct (upsertOne_stored upstream ix t Ht) as (row & Hrow & Htext).
  exists row. by rewrite upsertMany_other.
Qed.

Lemma filter_bool_all_false {A} (p : A → bool) (l : list A) :
  (∀ x, x ∈ l → p x = false) → List.filter p l = [].
Proof. intros Hp. apply filter_bool_none. by apply Forall_forall. Qed.

(** With nothing to add, remove or update, a turn of [syncEmbeddings]
    leaves the index as it is. *)
Lemma syncServer_unchanged (server : string) (tools : list ToolInfo) (ix : Index) :
  Forall (stored ix server) tools →
  (∀ n, is_Some (lookup_row ix server n) → n ∈ map name tools) →
  syncServer server tools ix = ix.
Proof.
  intros Hstored Hlisted.
  assert (Hget : ∀ n, getEmbeddings server ix !! n = lookup_row ix server n).
  { intros n. unfold getEmbeddings, lookup_row. by destruct (rows ix !! server). }
  rewrite Forall_forall in Hstored.
  unfold Embeddings.syncServer, detectChanges. simpl.
  rewrite (filter_bool_all_false
             (λ t, bool_decide (getEmbeddings server ix !! name t = None))); simpl.
  2:{ intros t (row & Hrow & _)%Hstored. apply bool_decide_eq_false_2.
      by rewrite Hget, Hrow. }
  rewrite (filter_bool_all_false (λ n, bool_decide (n ∉ map name tools))); simpl.
  2:{ intros n ([n' row] & -> & Hin)%list_elem_of_fmap.
      apply elem_of_map_to_list in Hin. simpl.
      apply bool_decide_eq_false_2. intros Hn. apply Hn, Hlisted.
      by rewrite <- Hget, Hin. }
  rewrite filter_bool_all_false; simpl; [done|].
  intros t (row & Hrow & Htext)%Hstored.
  by rewrite Hget, Hrow, Htext, String.eqb_refl.
Qed.


End EmbeddingsFacts.



(** ** More facts about the hub-management tools *)

Section HubCoverage.
Import Hub HubViews.
Context (connect : Settings → gmap string Client).
Context (collaborator_case : string → Args → M ToolResult).

Local Abbreviation executeTool := (Hub.executeTool connect collaborator_case).

(** *** Failures change nothing *)

Lemma add_server_throws (a : Args) (w w' : World) (message : string) :
  add_server connect a w = (Throws message, w') → w' = w.
Proof.
  unfold add_server, bind, loadSettings, throw. simpl.
  repeat case_match; simpl; intros [= ]; done.
Qed.

Lemma update_server_throws (a : Args) (w w' : World) (message : string) :
  update_server connect a w = (Throws message, w') → w' = w.
Proof.
  unfold update_server, bind, loadSettings, throw. simpl.
  repeat case_match; simpl; intros [= ]; done.
Qed.

Lemma delete_server_throws (a : Args) (w w' : World) (message : string) :
  delete_server connect a w = (Throws message, w') → w' = w.
Proof.
  unfold delete_server, bind, loadSettings, throw. simpl.
  repeat case_match; simpl; intros [= ]; done.
Qed.

Lemma toggle_server_throws (a : Args) (w w' : World) (message : string) :
  toggle_server connect a w = (Throws message, w') → w' = w.
Proof.
  unfold toggle_server, bind, loadSettings, throw. simpl.
  repeat case_match; simpl; intros [= ]; done.
Qed.

Lemma toggle_tool_throws (a : Args) (w w' : World) (message : string) :
  toggle_tool a w = (Throws message, w') → w' = w.
Proof.
  unfold toggle_tool, bind, loadSettings, throw. simpl.
  repeat case_match; simpl; intros [= ]; done.
Qed.

Lemma validate_servers_outcome (l : list (string * ServerConfig)) (w : World) :
  validate_servers l w = (Returns (), w)
  ∨ ∃ message, validate_servers l w = (Throws message, w).
Proof.
  induction l as [|e l IH]; simpl; [by left|].
  destruct (validate_server e) as [m|]; [right; by exists m|exact IH].
Qed.

Lemma import_configuration_throws (a : Args) (w w' : World) (message : string) :
  import_configuration a w = (Throws message, w') → w' = w.
Proof.
  unfold import_configuration, bind, loadSettings, throw. simpl.
  destruct (Js.truthy_bool (a_validate a)); simpl.
  - destruct (_ && _); simpl; [by intros [= ]|].
    destruct (validate_servers_outcome (server_entries (a_config a)) w)
      as [->|[m ->]]; [|by intros [= ]].
    destruct (Js.truthy_bool (a_merge a)); simpl; by intros [= ].
  - destruct (Js.truthy_bool (a_merge a)); simpl; by intros [= ].
Qed.

(** X1: whichever embedded tool throws, the settings file, the clients
    and the trace of collaborator calls are what they were before the
    call: every check that can fail comes before the first write. *)
Theorem failed_tool_changes_nothing
    (name : string) (a : Args) (w w' : World) (message : string) :
  name ∉ collaborator_cases →
  executeTool name a w = (Throws message, w') →
  w' = w.
Proof.
  intros Hname. unfold Hub.executeTool.
  repeat match goal with
  | |- context [String.eqb name ?lit] =>
      destruct (String.eqb_spec name lit) as [->|_]
  end;
  eauto using add_server_throws, update_server_throws, delete_server_throws,
    toggle_server_throws, toggle_tool_throws, import_configuration_throws.
  - unfold list_servers, bind, loadSettings, getClients, ret. simpl.
    by destruct (negb _); intros [= ].
  - unfold list_all_tools, bind, loadSettings, getClients, ret. simpl.
    by intros [= ].
  - unfold export_configuration, bind, loadSettings, ret. simpl.
    by destruct (negb _); intros [= ].
  - rewrite bool_decide_eq_false_2 by done. unfold throw. by intros [= ].
Qed.

(** X2: the listing tools and the export only read: they return a
    value, whatever the arguments, and leave the world as it is. *)
Theorem reading_tools_only_read (name : string) (a : Args) (w : World) :
  name ∈ ["list_servers"; "list_all_tools"; "export_configuration"] →
  ∃ result, executeTool name a w = (Returns result, w).
Proof.
  intros Hname.
  repeat (apply elem_of_cons in Hname as [->|Hname]);
    [| | |by apply not_elem_of_nil in Hname].
  - change (Hub.executeTool connect collaborator_case "list_servers" a w)
      with (list_servers a w).
    unfold list_servers, bind, loadSettings, getClients, ret. simpl.
    destruct (negb _); by eexists.
  - change (Hub.executeTool connect collaborator_case "list_all_tools" a w)
      with (list_all_tools a w).
    by eexists.
  - change (Hub.executeTool connect collaborator_case "export_configuration" a w)
      with (export_configuration a w).
    unfold export_configuration, bind, loadSettings, ret. simpl.
    destruct (negb _); by eexists.
Qed.

(** *** Adding and deleting servers *)

Lemma server_of_with_mcpServers (s : Settings) (m : gmap string ServerConfig)
    (n : string) :
  server_of (with_mcpServers s m) n = m !! n.
Proof. done. Qed.

Lemma add_server_returns (a : Args) (w w' : World) (result : ToolResult) :
  add_server connect a w = (Returns result, w') →
  server_of (settings_file w) (Js.to_key (a_name a)) = None
  ∧ (is_type (new_server_config a) "stdio" = true →
     Js.truthy_str (command (new_server_config a)) = true)
  ∧ (is_type (new_server_config a) "sse" = true
     ∨ is_type (new_server_config a) "streamable-http" = true →
     Js.truthy_str (url (new_server_config a)) = true)
  ∧ w' = {| settings_file :=
              set_server (settings_file w) (Js.to_key (a_name a)) (new_server_config a);
            clients :=
              connect (set_server (settings_file w) (Js.to_key (a_name a))
                         (new_server_config a));
            trace :=
              ((trace w
                ++ [SaveSettings (set_server (settings_file w) (Js.to_key (a_name a))
                                    (new_server_config a))])
               ++ [InitializeClientsFromSettings false])%list |}
  ∧ result = RStatus true ("Server " ++ quoted (Js.to_key (a_name a))
                           ++ " added successfully").
Proof.
  unfold add_server, bind, loadSettings, throw. cbv beta iota zeta.
  case_bool_decide as Hex; [by intros [= ]|].
  destruct (is_type (new_server_config a) "stdio" && _) eqn:Hstdio;
    [by intros [= ]|].
  destruct ((is_type (new_server_config a) "sse" || _) && _) eqn:Hurl;
    [by intros [= ]|].
  cbn [saveSettings initializeClientsFromSettings ret settings_file clients trace].
  intros [= <- <-].
  split; [by apply eq_None_not_Some|].
  split.
  { intros Ht. rewrite Ht in Hstdio. by apply negb_false_iff. }
  split; [|done].
  intros Ht. apply negb_false_iff. apply andb_false_iff in Hurl as [Hurl|Hurl]; [|done].
  apply orb_false_iff in Hurl as [? ?]. destruct Ht; congruence.
Qed.


Lemma delete_server_returns (a : Args) (w : World) (c : ServerConfig) :
  server_of (settings_file w) (Js.to_key (a_name a)) = Some c →
  delete_server connect a w =
    (Returns (RStatus true ("Server " ++ quoted (Js.to_key (a_name a))
                            ++ " deleted successfully")),
     let s' := with_mcpServers (settings_file w)
                 (delete (Js.to_key (a_name a)) (default ∅ (mcpServers (settings_file w)))) in
     {| settings_file := s';
        clients := connect s';
        trace := ((trace w ++ [SaveSettings s'])
                  ++ [InitializeClientsFromSettings false])%list |}).
Proof.
  intros Hs. unfold delete_server, bind, loadSettings. simpl. by rewrite Hs.
Qed.


(** X5: after [add_server] has returned, adding the same name again is
    refused with [Server "<name>" already exists] and changes nothing,
    and deleting the name brings every server lookup back to what it
    was before the addition. *)
Theorem add_server_then_add_or_delete
    (a : Args) (w w1 : World) (result : ToolResult) :
  executeTool "add_server" a w = (Returns result, w1) →
  executeTool "add_server" a w1
  = (Throws ("Server " ++ quoted (Js.to_key (a_name a)) ++ " already exists"), w1)
  ∧ ∃ result2 w2,
      executeTool "delete_server" a w1 = (Returns result2, w2)
      ∧ ∀ n, server_of (settings_file w2) n = server_of (settings_file w) n.
Proof.
  change (Hub.executeTool connect collaborator_case "add_server" a w)
    with (add_server connect a w).
  change (Hub.executeTool connect collaborator_case "add_server" a w1)
    with (add_server connect a w1).
  change (Hub.executeTool connect collaborator_case "delete_server" a w1)
    with (delete_server connect a w1).
  intros (Hfree & _ & _ & -> & _)%add_server_returns.
  set (name := Js.to_key (a_name a)) in *.
  assert (Hnow : server_of (set_server (settings_file w) name (new_server_config a)) name
                 = Some (new_server_config a)).
  { rewrite server_of_set_server. by rewrite decide_True. }
  split.
  - unfold add_server, bind, loadSettings. simpl. fold name.
    rewrite Hnow. by rewrite bool_decide_eq_true_2.
  - eexists _, _. split; [by apply (delete_server_returns a _ (new_server_config a))|].
    intros n. simpl. rewrite server_of_with_mcpServers. fold name.
    unfold set_server, with_mcpServers. simpl.
    rewrite delete_insert_eq.
    destruct (decide (n = name)) as [->|Hn].
    + by rewrite lookup_delete_eq.
    + by rewrite lookup_delete_ne, lookup_servers.
Qed.

(** *** Listing servers *)

Lemma executeTool_list_servers (a : Args) (w : World) :
  executeTool "list_servers" a w = (Returns (RServers (listed_servers a w)), w).
Proof.
  change (Hub.executeTool connect collaborator_case "list_servers" a w)
    with (list_servers a w).
  unfold list_servers, listed_servers, bind, loadSettings, getClients, ret. simpl.
  by destruct (negb _).
Qed.

Lemma NoDup_map_filter_bool {A B} (f : A → B) (p : A → bool) (l : list A) :
  NoDup (map f l) → NoDup (map f (List.filter p l)).
Proof.
  induction l as [|x l IH]; simpl; [done|].
  intros [Hx Hl]%NoDup_cons. destruct (p x); simpl; [|by apply IH].
  apply NoDup_cons. split; [|by apply IH].
  intros (y & Hy & [Hin _]%elem_of_filter_bool)%list_elem_of_fmap.
  apply Hx. rewrite Hy. by apply list_elem_of_fmap_2.
Qed.

Lemma elem_of_listed_servers (a : Args) (w : World) (sm : ServerSummary) :
  sm ∈ listed_servers a w ↔
  ∃ c, server_of (settings_file w) (ss_name sm) = Some c
       ∧ sm = server_summary (clients w) (ss_name sm, c)
       ∧ (Js.truthy_bool (a_includeDisabled a) = true ∨ enabled c ≠ Some false).
Proof.
  assert (Hall : sm ∈ map (server_summary (clients w)) (server_entries (settings_file w))
                 ↔ ∃ c, server_of (settings_file w) (ss_name sm) = Some c
                        ∧ sm = server_summary (clients w) (ss_name sm, c)).
  { split.
    - intros ([n c] & -> & Hin%elem_of_server_entries)%list_elem_of_fmap.
      by exists c.
    - intros (c & Hc & ->). apply list_elem_of_fmap. eexists. split; [done|].
      by apply elem_of_server_entries. }
  unfold listed_servers. destruct (Js.truthy_bool (a_includeDisabled a)); simpl.
  - rewrite Hall. split.
    + intros (c & Hc & Hsm). exists c. auto.
    + intros (c & Hc & Hsm & _). by exists c.
  - rewrite elem_of_filter_bool, Hall. split.
    + intros [(c & Hc & Hsm) Hen]. exists c. split; [done|]. split; [done|].
      right. rewrite Hsm in Hen. simpl in Hen. intros He. by rewrite He in Hen.
    + intros (c & Hc & Hsm & [?|Hen]); [done|]. split; [by exists c|].
      rewrite Hsm. simpl. by destruct (enabled c) as [[]|].
Qed.

(** X6: [list_servers] answers with one summary per configured server,
    no name twice, each read off that server's configuration ([enabled]
    unless the flag is [false], type [stdio] when none is given, the
    number of overlay entries as [toolCount]) and off the client table
    (connected exactly when the client has capabilities); without
    [includeDisabled] the servers whose flag is [false] are left out, and
    those only. *)
Theorem list_servers_summaries (a : Args) (w : World) :
  ∃ servers,
    executeTool "list_servers" a w = (Returns (RServers servers), w)
    ∧ NoDup (map ss_name servers)
    ∧ (∀ name,
         name ∈ map ss_name servers ↔
         ∃ c, server_of (settings_file w) name = Some c
              ∧ (Js.truthy_bool (a_includeDisabled a) = true
                 ∨ enabled c ≠ Some false))
    ∧ ∀ sm, sm ∈ servers →
        ∃ c, server_of (settings_file w) (ss_name sm) = Some c
             ∧ (ss_enabled sm = true ↔ enabled c ≠ Some false)
             ∧ (ss_connected sm = true ↔
                ∃ cl caps, clients w !! ss_name sm = Some cl
                           ∧ getServerCapabilities cl = Some caps)
             ∧ ss_type sm = Js.or_default (type c) "stdio"
             ∧ ss_command sm = command c ∧ ss_url sm = url c
             ∧ ss_toolCount sm = size (default ∅ (tools c)).
Proof.
  exists (listed_servers a w). split; [apply executeTool_list_servers|].
  split; [|split].
  - unfold listed_servers.
    assert (NoDup (map ss_name (map (server_summary (clients w))
                                  (server_entries (settings_file w))))) as Hnd.
    { rewrite map_map. simpl. apply NoDup_fst_map_to_list. }
    destruct (negb _); [by apply NoDup_map_filter_bool|done].
  - intros name. split.
    + intros (sm & -> & (c & Hc & _ & Hen)%elem_of_listed_servers)%list_elem_of_fmap.
      by exists c.
    + intros (c & Hc & Hen). apply list_elem_of_fmap.
      exists (server_summary (clients w) (name, c)). split; [done|].
      apply elem_of_listed_servers. by exists c.
  - intros sm (c & Hc & Hsm & _)%elem_of_listed_servers. exists c.
    split; [done|]. rewrite Hsm. simpl. split; [|split; [|done]].
    + by destruct (enabled c) as [[]|].
    + unfold connected. destruct (clients w !! ss_name sm) as [cl|]; simpl.
      * destruct (getServerCapabilities cl) as [caps|] eqn:Hcaps.
        -- split; [by exists cl, caps|done].
        -- split; [done|]. intros (? & ? & [= <-] & ?). congruence.
      * split; [done|]. by intros (? & ? & ? & ?).
Qed.

(** X7: a server whose configuration has no [enabled] field is shown as
    enabled by [list_servers] ([config.enabled !== false]) and is listed
    by it without [includeDisabled], while [list_all_tools] without
    [includeDisabled] takes the same server for disabled
    ([!serverConfig.enabled]) and lists none of its tools. *)
Theorem server_without_enabled_flag (a : Args) (w : World)
    (name : string) (c : ServerConfig) :
  server_of (settings_file w) name = Some c →
  enabled c = None →
  Js.truthy_bool (a_includeDisabled a) = false →
  (∃ servers sm,
      executeTool "list_servers" a w = (Returns (RServers servers), w)
      ∧ sm ∈ servers ∧ ss_name sm = name ∧ ss_enabled sm = true)
  ∧ ∃ allTools,
      executeTool "list_all_tools" a w = (Returns (RTools allTools), w)
      ∧ ∀ e, e ∈ allTools → te_server e ≠ name.
Proof.
  intros Hc Hen Hinc. split.
  - exists (listed_servers a w), (server_summary (clients w) (name, c)).
    split; [apply executeTool_list_servers|]. split.
    + apply elem_of_listed_servers. exists c. simpl. rewrite Hen. auto.
    + simpl. by rewrite Hen.
  - eexists. split; [apply (executeTool_list_all_tools connect collaborator_case)|].
    intros e (n & c' & tool & Hs & Hskip & _ & _ & ->)%elem_of_allTools. simpl.
    intros ->. rewrite Hc in Hs. injection Hs as <-.
    unfold server_skipped in Hskip. rewrite Hen, Hinc in Hskip. simpl in Hskip.
    by rewrite orb_true_r in Hskip.
Qed.

(** *** Toggling a tool and listing the tools *)

Lemma tool_listed_iff (a : Args) (w : World) (n t : string) :
  tool_listed a w n t ↔
  ∃ c tool,
    server_of (settings_file w) n = Some c
    ∧ server_skipped a n c = false
    ∧ tool ∈ reported_tools (clients w !! n)
    ∧ t_name tool = t
    ∧ tool_enabled c t || Js.truthy_bool (a_includeDisabled a) = true.
Proof.
  unfold tool_listed. split.
  - intros (e & (n' & c & tool & Hs & Hskip & Htool & Hen & ->)%elem_of_allTools
            & <- & <-).
    by exists c, tool.
  - intros (c & tool & Hs & Hskip & Htool & <- & Hen).
    exists (tool_entry n c tool). split; [|done].
    apply elem_of_allTools. by exists n, c, tool.
Qed.

Lemma toggle_tool_returns (a : Args) (w : World) (c : ServerConfig) :
  server_of (settings_file w) (Js.to_key (a_server a)) = Some c →
  (toggle_tool a w).2 =
    let s' := set_server (settings_file w) (Js.to_key (a_server a))
                (with_tool_enabled c (Js.to_key (a_toolName a)) (a_enabled a)) in
    {| settings_file := s'; clients := clients w;
       trace := (trace w ++ [SaveSettings s'])%list |}.
Proof.
  intros Hs. unfold toggle_tool, bind, loadSettings. simpl. by rewrite Hs.
Qed.

Lemma tool_enabled_with_tool_enabled (c : ServerConfig) (t t' : string)
    (e : option bool) :
  tool_enabled (with_tool_enabled c t e) t' =
    if decide (t = t') then Js.not_false e else tool_enabled c t'.
Proof.
  unfold tool_enabled, tool_config at 1. simpl. rewrite lookup_insert.
  case_decide; [done|]. by rewrite lookup_tools.
Qed.


(** [toggle_tool] is idempotent on the settings: a second call with
    the same arguments writes the settings the first call wrote. *)
Theorem toggle_tool_twice (a : Args) (w : World) :
  let w1 := (executeTool "toggle_tool" a w).2 in
  let w2 := (executeTool "toggle_tool" a w1).2 in
  settings_file w2 = settings_file w1 ∧ clients w2 = clients w.
Proof.
  change (Hub.executeTool connect collaborator_case "toggle_tool" a)
    with (toggle_tool a).
  simpl.
  destruct (server_of (settings_file w) (Js.to_key (a_server a))) as [c|] eqn:Hs.
  - rewrite (toggle_tool_returns a w c Hs). simpl.
    set (t := Js.to_key (a_toolName a)). set (n := Js.to_key (a_server a)).
    set (c1 := with_tool_enabled c t (a_enabled a)).
    rewrite (toggle_tool_returns a _ c1); simpl.
    2:{ rewrite server_of_set_server. by rewrite decide_True. }
    split; [|done].
    unfold set_server, with_mcpServers. simpl. f_equal. f_equal.
    rewrite insert_insert_eq. f_equal.
    unfold with_tool_enabled, c1. simpl. f_equal. f_equal.
    rewrite lookup_insert_eq. simpl. by rewrite insert_insert_eq.
  - unfold toggle_tool, bind, loadSettings. simpl. rewrite Hs. simpl.
    by rewrite Hs.
Qed.

(** *** Updating and toggling a server *)

(** X9: [update_server] on a server that exists always succeeds: it
    checks nothing, so it stores whatever command, type or URL it is
    given, the empty string included.  Each of the five connection fields
    becomes the argument when one is passed and stays otherwise; the
    [enabled] flag, the tool overlay and every other server stay. *)
Theorem update_server_overwrites_given_fields (a : Args) (w : World) (c : ServerConfig) :
  let name := Js.to_key (a_name a) in
  server_of (settings_file w) name = Some c →
  ∃ w' c',
    executeTool "update_server" a w
    = (Returns (RStatus true ("Server " ++ quoted name ++ " updated successfully")), w')
    ∧ server_of (settings_file w') name = Some c'
    ∧ command c' = match a_command a with Some v => Some v | None => command c end
    ∧ args c' = match a_args a with Some v => Some v | None => args c end
    ∧ env c' = match a_env a with Some v => Some v | None => env c end
    ∧ type c' = match a_type a with Some v => Some v | None => type c end
    ∧ url c' = match a_url a with Some v => Some v | None => url c end
    ∧ enabled c' = enabled c ∧ tools c' = tools c
    ∧ (∀ n, n ≠ name → server_of (settings_file w') n = server_of (settings_file w) n).
Proof.
  intros name Hs.
  change (Hub.executeTool connect collaborator_case "update_server" a w)
    with (update_server connect a w).
  unfold update_server, bind, loadSettings. simpl. fold name. rewrite Hs. simpl.
  eexists _, (updated_config a c). split; [reflexivity|]. simpl.
  rewrite server_of_set_server, decide_True by done.
  repeat (split; [done|]).
  intros n Hn. rewrite server_of_set_server. by rewrite decide_False.
Qed.

(** X10: after [toggle_server] on a server that exists, [list_servers]
    without [includeDisabled] lists that server exactly when [enabled]
    was not [false], and lists every other server as before;
    [list_all_tools] without [includeDisabled] lists none of its tools
    unless [enabled] was [true]. *)
Theorem toggle_server_then_list (a b : Args) (w : World) (c : ServerConfig) :
  let name := Js.to_key (a_name a) in
  let w' := (executeTool "toggle_server" a w).2 in
  server_of (settings_file w) name = Some c →
  Js.truthy_bool (a_includeDisabled b) = false →
  (∀ n, n ∈ map ss_name (listed_servers b w') ↔
        if decide (n = name) then a_enabled a ≠ Some false
        else n ∈ map ss_name (listed_servers b w))
  ∧ (a_enabled a ≠ Some true → ∀ t, ¬ tool_listed b w' name t).
Proof.
  intros name w' Hs Hinc.
  assert (Hw' : settings_file w' = set_server (settings_file w) name
                                     (with_enabled c (a_enabled a))).
  { subst w'.
    change (Hub.executeTool connect collaborator_case "toggle_server" a w)
      with (toggle_server connect a w).
    unfold toggle_server, bind, loadSettings. simpl. fold name. by rewrite Hs. }
  assert (Hnames : ∀ v n, n ∈ map ss_name (listed_servers b v) ↔
                          ∃ c0, server_of (settings_file v) n = Some c0
                                ∧ enabled c0 ≠ Some false).
  { intros v n. split.
    - intros (sm & -> & (c0 & Hc0 & _ & [Hen|Hen])%elem_of_listed_servers)
               %list_elem_of_fmap; [congruence|by exists c0].
    - intros (c0 & Hc0 & Hen). apply list_elem_of_fmap.
      exists (server_summary (clients v) (n, c0)). split; [done|].
      apply elem_of_listed_servers. exists c0. auto. }
  split.
  - intros n. rewrite !Hnames, Hw', server_of_set_server.
    case_decide as Hn.
    + rewrite decide_True by done. split.
      * by intros (c0 & [= <-] & Hen).
      * intros Hen. by eexists.
    + by rewrite decide_False by done.
  - intros Hen t (c0 & tool & Hc0 & Hskip & _)%tool_listed_iff.
    rewrite Hw', server_of_set_server, decide_True in Hc0 by done.
    injection Hc0 as <-. unfold server_skipped in Hskip. simpl in Hskip.
    rewrite Hinc in Hskip. apply orb_false_iff in Hskip as [_ Hskip].
    destruct (a_enabled a) as [[]|]; simpl in Hskip; congruence.
Qed.

(** *** Importing and exporting *)

Lemma server_of_merge_settings (current config : Settings) (n : string) :
  server_of (merge_settings current config) n =
    match server_of config n with
    | Some c => Some c
    | None => server_of current n
    end.
Proof.
  unfold merge_settings, server_of at 1. simpl.
  rewrite lookup_union, !lookup_servers.
  by destruct (server_of config n), (server_of current n).
Qed.


Lemma executeTool_export (a : Args) (w : World) :
  executeTool "export_configuration" a w =
    (Returns (RConfig (if Js.truthy_bool (a_includeSecrets a)
                       then settings_file w else redact (settings_file w))), w).
Proof.
  change (Hub.executeTool connect collaborator_case "export_configuration" a w)
    with (export_configuration a w).
  unfold export_configuration, bind, loadSettings, ret. simpl.
  by destruct (Js.truthy_bool (a_includeSecrets a)).
Qed.

(** X12: importing what [export_configuration] returned (no [merge],
    no [validate]) saves exactly the exported configuration.  With
    [includeSecrets] that is the settings the export was taken from, so
    export followed by import restores them; without it, the import
    overwrites a non-empty [smartRouting.openaiApiKey] and every
    environment variable with a secret name by [***REDACTED***]. *)
Theorem export_then_import (a : Args) (w v : World) :
  ∃ exported : Settings,
    executeTool "export_configuration" a w = (Returns (RConfig exported), w)
    ∧ settings_file (executeTool "import_configuration"
                       (import_of exported None None) v).2 = exported
    ∧ (Js.truthy_bool (a_includeSecrets a) = true → exported = settings_file w)
    ∧ (Js.truthy_bool (a_includeSecrets a) = false →
       (∀ sr, smartRouting (settings_file w) = Some sr →
              Js.truthy_str (openaiApiKey sr) = true →
              smartRouting exported ≫= openaiApiKey = Some REDACTED)
       ∧ ∀ n c e key value,
           server_of (settings_file w) n = Some c → env c = Some e →
           e !! key = Some value → is_secret_name key = true →
           ∃ c' e', server_of exported n = Some c' ∧ env c' = Some e'
                    ∧ e' !! key = Some REDACTED).
Proof.
  eexists. split; [apply executeTool_export|]. split; [done|].
  destruct (Js.truthy_bool (a_includeSecrets a)); split; try done.
  intros _. split.
  - intros sr Hsr Hkey. unfold redact. simpl. rewrite Hsr. simpl.
    unfold redact_smartRouting. by rewrite Hkey.
  - intros n c e key value Hc He Hkey Hsec.
    exists (redact_server c), (redact_env e).
    rewrite server_of_redact, Hc. simpl. rewrite He. simpl.
    by rewrite lookup_redact_env, Hkey, Hsec.
Qed.

Lemma redact_env_idemp (e : gmap string string) :
  redact_env (redact_env e) = redact_env e.
Proof.
  apply map_eq. intros key. rewrite !lookup_redact_env.
  destruct (e !! key); simpl; [|done]. by destruct (is_secret_name key).
Qed.

Lemma redact_idemp (s : Settings) : redact (redact s) = redact s.
Proof.
  destruct s as [m g u sc sr]. unfold redact. simpl. f_equal.
  - destruct m as [m|]; simpl; [|done]. f_equal.
    apply map_eq. intros n. rewrite !lookup_fmap.
    destruct (m !! n) as [c|]; simpl; [|done].
    unfold redact_server. simpl. do 2 f_equal.
    destruct (env c); simpl; [|done]. by rewrite redact_env_idemp.
  - destruct sr as [sr|]; simpl; [|done]. f_equal.
    unfold redact_smartRouting.
    destruct (Js.truthy_str (openaiApiKey sr)) eqn:Hk; simpl; [done|by rewrite Hk].
Qed.


Lemma validate_server_None (n : string) (c : ServerConfig) :
  validate_server (n, c) = None ↔ server_acceptable c.
Proof.
  unfold validate_server, server_acceptable, is_type. simpl.
  destruct (type c) as [t|]; simpl.
  - destruct (String.eqb_spec t "stdio") as [->|Hstdio]; simpl.
    + destruct (Js.truthy_str (command c)); simpl.
      * split; [|done]. intros _. split; [by intros [_ ?]|].
        by intros [[[= ]|[= ]] _].
      * split; [done|]. intros [Hn _]. by destruct Hn.
    + destruct (String.eqb_spec t "sse") as [->|Hsse]; simpl.
      * destruct (Js.truthy_str (url c)); simpl.
        -- split; [|done]. intros _. split; [by intros [[= ] _]|by intros [_ ?]].
        -- split; [done|]. intros [_ Hn]. destruct Hn. auto.
      * destruct (String.eqb_spec t "streamable-http") as [->|Hhttp]; simpl.
        -- destruct (Js.truthy_str (url c)); simpl.
           ++ split; [|done]. intros _. split; [by intros [[= ] _]|by intros [_ ?]].
           ++ split; [done|]. intros [_ Hn]. destruct Hn. auto.
        -- split; [|done]. intros _.
           split; [intros [[= ] _]; congruence|].
           intros [[[= ]|[= ]] _]; congruence.
  - split; [|done]. intros _. split; [by intros [[= ] _]|by intros [[[= ]|[= ]] _]].
Qed.

Lemma validate_servers_returns (l : list (string * ServerConfig)) (w : World) :
  validate_servers l w = (Returns (), w) ↔ Forall (λ e, validate_server e = None) l.
Proof.
  induction l as [|e l IH]; simpl; [split; [constructor|done]|].
  destruct (validate_server e) as [m|] eqn:He.
  - split; [done|]. intros Hall. apply Forall_cons in Hall as [? _]. congruence.
  - rewrite IH. split; [by constructor|]. by intros [_ ?]%Forall_cons.
Qed.

(** X14: with [validate], [import_configuration] goes through exactly
    when the configuration has [mcpServers] or a truthy [groups] and none
    of its servers is of type [stdio] without a command or of type [sse]
    or [streamable-http] without a URL; it throws otherwise, having saved
    nothing.  A server with no [type] field passes, command or not. *)
Theorem import_validation (a : Args) (w : World) :
  Js.truthy_bool (a_validate a) = true →
  let config := a_config a in
  ((∃ result w', executeTool "import_configuration" a w = (Returns result, w')) ↔
   (is_Some (mcpServers config) ∨ truthy_json (groups config) = true)
   ∧ ∀ n c, server_of config n = Some c → server_acceptable c)
  ∧ (∀ c, type c = None → server_acceptable c).
Proof.
  intros Hval config. split.
  - change (Hub.executeTool connect collaborator_case "import_configuration" a w)
      with (import_configuration a w).
    unfold import_configuration, bind, loadSettings. rewrite Hval. fold config.
    assert (Hall : Forall (λ e, validate_server e = None) (server_entries config)
                   ↔ ∀ n c, server_of config n = Some c → server_acceptable c).
    { rewrite Forall_forall. split.
      - intros Hl n c Hc. apply (validate_server_None n), Hl.
        by apply elem_of_server_entries.
      - intros Hl [n c] Hin%elem_of_server_entries.
        apply validate_server_None. by apply (Hl n). }
    assert (Hrun : (∃ result w',
                       match validate_servers (server_entries config) w with
                       | (Returns _, w0) =>
                           (if Js.truthy_bool (a_merge a)
                            then bind (λ w1, (Returns (settings_file w1), w1))
                                   (λ currentSettings,
                                      bind (saveSettings (merge_settings currentSettings config))
                                        (λ _, ret (RStatus true "Configuration merged successfully")))
                            else bind (saveSettings config)
                                   (λ _, ret (RStatus true "Configuration imported successfully")))
                             w0
                       | (Throws m, w0) => (Throws m, w0)
                       end = (Returns result, w'))
                   ↔ ∀ n c, server_of config n = Some c → server_acceptable c).
    { destruct (validate_servers_outcome (server_entries config) w)
        as [Hok|[m Hbad]].
      - rewrite Hok. split.
        + intros _. apply Hall. by apply (validate_servers_returns _ w).
        + intros _. destruct (Js.truthy_bool (a_merge a)); by eexists _, _.
      - rewrite Hbad. split; [by intros (? & ? & [= ])|].
        intros Hacc. apply Hall in Hacc.
        apply (validate_servers_returns _ w) in Hacc. congruence. }
    case_bool_decide as Hm; simpl.
    + unfold bind in Hrun. rewrite Hrun. split; [by auto|by intros [_ ?]].
    + destruct (truthy_json (groups config)) eqn:Hg; simpl.
      * unfold bind in Hrun. rewrite Hrun. split; [by auto|by intros [_ ?]].
      * split; [by intros (? & ? & [= ])|]. by intros [[?|[= ]] _].
  - intros c Hc. unfold server_acceptable. rewrite Hc.
    split; [by intros [[= ] _]|by intros [[[= ]|[= ]] _]].
Qed.

End HubCoverage.

(** ** Facts about the monitoring tools *)

Section HubMonitoringFacts.
Import Hub HubViews.

Lemma connection_status_probe (cs : gmap string Client) (e : string * ServerConfig) :
  let st := connection_status cs e in
  (cs_connected st = false → cs_toolCount st = 0%nat ∧ cs_lastError st = None)
  ∧ (∀ message, cs_lastError st = Some message ↔
       cs_connected st = true
       ∧ ∃ cl, cs !! e.1 = Some cl ∧ listTools cl = ListToolsRejects message)
  ∧ (∀ cl ts, cs_connected st = true → cs !! e.1 = Some cl →
       listTools cl = ListToolsResolves ts →
       cs_toolCount st = length (default [] ts)).
Proof.
  unfold connection_status. simpl.
  destruct (connected cs e.1) eqn:Hconn; simpl.
  - split; [done|]. destruct (cs !! e.1) as [cl|] eqn:Hcl; simpl.
    + destruct (listTools cl) as [m|ts] eqn:Hlt; simpl.
      * split; [|by intros ? ? _ [= <-]; congruence].
        intros message. split.
        -- intros [= <-]. split; [done|]. by exists cl.
        -- intros [_ (cl' & [= <-] & Hm)]. congruence.
      * split.
        -- intros message. split; [done|]. intros [_ (cl' & [= <-] & Hm)]. congruence.
        -- intros cl' ts' _ [= <-] Hts. congruence.
    + split; [|done]. intros message. split; [done|]. by intros [_ (? & ? & _)].
  - split; [done|]. split; [|done].
    intros message. split; [done|by intros [? _]].
Qed.

(** X15: [get_connection_status] only reads, and reports every
    configured server once, in the order of [list_servers] with
    [includeDisabled] and with the same [enabled], [connected] and [type].
    Its [toolCount] is the number of tools the upstream reports, and is 0
    for a server that is not connected or whose [listTools] is rejected;
    [lastError] is set exactly when a connected client rejects
    [listTools], and then holds the message. *)
Theorem connection_status_per_server (a : Args) (w : World) :
  Js.truthy_bool (a_includeDisabled a) = true →
  ∃ statuses,
    get_connection_status w = (Returns statuses, w)
    ∧ map (λ st, (cs_name st, cs_enabled st, cs_connected st, cs_type st)) statuses
      = map (λ sm, (ss_name sm, ss_enabled sm, ss_connected sm, ss_type sm))
          (listed_servers a w)
    ∧ NoDup (map cs_name statuses)
    ∧ ∀ st, st ∈ statuses →
        (cs_connected st = false → cs_toolCount st = 0%nat ∧ cs_lastError st = None)
        ∧ (∀ message, cs_lastError st = Some message ↔
             cs_connected st = true
             ∧ ∃ cl, clients w !! cs_name st = Some cl
                     ∧ listTools cl = ListToolsRejects message)
        ∧ (∀ cl ts, cs_connected st = true → clients w !! cs_name st = Some cl →
             listTools cl = ListToolsResolves ts →
             cs_toolCount st = length (default [] ts)).
Proof.
  intros Hinc. eexists. split; [reflexivity|]. split; [|split].
  - unfold listed_servers. rewrite Hinc. simpl. by rewrite !map_map.
  - rewrite map_map. simpl. apply NoDup_fst_map_to_list.
  - intros st (e & -> & _)%list_elem_of_fmap. apply connection_status_probe.
Qed.

(** X16: [test_server] only reads and never throws.  It reports
    success exactly when the named client exists and its [listTools]
    resolves; whether the client has capabilities plays no part, so it
    calls a server connected that [get_connection_status] shows as not
    connected. *)
Theorem test_server_reports (name : string) (w : World) :
  ∃ r,
    test_server name w = (Returns r, w)
    ∧ (tr_success r = true ↔
       ∃ cl ts, clients w !! name = Some cl ∧ listTools cl = ListToolsResolves ts)
    ∧ (tr_success r = true → tr_message r = "Server " ++ quoted name ++ " is connected")
    ∧ (∀ cl ts, clients w !! name = Some cl → getServerCapabilities cl = None →
         listTools cl = ListToolsResolves ts →
         tr_success r = true ∧ connected (clients w) name = false)
    ∧ (∀ message, tr_error r = Some message ↔
         ∃ cl, clients w !! name = Some cl ∧ listTools cl = ListToolsRejects message).
Proof.
  unfold test_server, bind, getClient, connected. simpl.
  destruct (clients w !! name) as [cl|] eqn:Hcl; simpl.
  - destruct (listTools cl) as [m|ts] eqn:Hlt; simpl.
    + eexists. split; [reflexivity|]. simpl. split; [|split; [done|split]].
      * split; [done|]. intros (? & ? & [= <-] & ?). congruence.
      * intros ? ? [= <-] _ ?. congruence.
      * intros message. split.
        -- intros [= <-]. by exists cl.
        -- intros (? & [= <-] & ?). congruence.
    + eexists. split; [reflexivity|]. simpl. split; [|split; [done|split]].
      * split; [|done]. intros _. by exists cl, ts.
      * intros ? ? [= <-] Hcaps _. by rewrite Hcaps.
      * intros message. split; [done|]. intros (? & [= <-] & ?). congruence.
  - eexists. split; [reflexivity|]. simpl. split; [|split; [done|split]].
    + split; [done|]. by intros (? & ? & ? & _).
    + by intros ? ? ?.
    + intros message. split; [done|]. by intros (? & ? & _).
Qed.

(** *** Logs *)

Lemma filter_bool_sublist {A} (p : A → bool) (l : list A) :
  List.filter p l `sublist_of` l.
Proof.
  induction l as [|x l IH]; simpl; [done|].
  destruct (p x); by constructor.
Qed.

Lemma slice_from_negative {A} (n : Z) (l : list A) :
  (0 < n)%Z →
  slice_from (- n) l = drop (length l - Z.to_nat n) l.
Proof.
  intros Hn. unfold slice_from.
  rewrite (proj2 (Z.ltb_lt _ _)) by lia. f_equal. lia.
Qed.

(** X17: [get_logs] returns entries of the log in their order, none
    twice over.  With a [level], every entry returned has that level;
    with a [server], every entry returned mentions the server in its
    message or carries it in its metadata.  A positive [limit] keeps the
    last [limit] of the entries that pass the filters (all of them when
    there are fewer), a [limit] of 0 keeps all, and a negative [limit]
    [-k] drops the first [k] instead. *)
Theorem get_logs_filters (getTime : string → option Z) (a : LogArgs)
    (logs : list LogEntry) :
  let filtered := since_filter getTime a (server_filter a (level_filter a logs)) in
  let result := get_logs getTime a logs in
  result `sublist_of` logs
  ∧ (Js.truthy_str (l_level a) = true →
     ∀ log, log ∈ result → Some (log_level log) = l_level a)
  ∧ (∀ server, l_server a = Some server → server ≠ "" →
     ∀ log, log ∈ result →
       (∃ pre post, log_message log = pre ++ server ++ post)
       ∨ log_server log = Some server)
  ∧ (∀ n, l_limit a = Some n → (0 < n)%Z →
       result = drop (length filtered - Z.to_nat n) filtered
       ∧ length result = (length filtered `min` Z.to_nat n)%nat)
  ∧ (l_limit a = None ∨ l_limit a = Some 0%Z → result = filtered)
  ∧ (∀ n, l_limit a = Some n → (n < 0)%Z →
       result = drop (Z.to_nat (- n)) filtered).
Proof.
  intros filtered result.
  assert (Hlevel : level_filter a logs `sublist_of` logs).
  { unfold level_filter. destruct (Js.truthy_str _); [apply filter_bool_sublist|done]. }
  assert (Hserver : server_filter a (level_filter a logs)
                    `sublist_of` level_filter a logs).
  { unfold server_filter. destruct (Js.truthy_str _); [apply filter_bool_sublist|done]. }
  assert (Hsince : filtered `sublist_of` server_filter a (level_filter a logs)).
  { unfold filtered, since_filter.
    destruct (Js.truthy_str _); [apply filter_bool_sublist|done]. }
  assert (Hlimit : result `sublist_of` filtered).
  { unfold result, get_logs, limit_filter. fold filtered.
    destruct (l_limit a) as [n|]; [|done].
    destruct (n =? 0)%Z; [done|]. unfold slice_from.
    destruct (_ <? _)%Z; apply sublist_drop. }
  assert (Hres_server : result `sublist_of` server_filter a (level_filter a logs))
    by (etrans; [exact Hlimit|exact Hsince]).
  assert (Hres_level : result `sublist_of` level_filter a logs)
    by (etrans; [exact Hres_server|exact Hserver]).
  split; [by etrans; [exact Hres_level|]|]. split; [|split].
  - intros Hl log Hlog.
    assert (log ∈ level_filter a logs) as Hin.
    { eapply elem_of_sublist; [exact Hlog|exact Hres_level]. }
    unfold level_filter in Hin. rewrite Hl in Hin.
    apply elem_of_filter_bool in Hin as [_ Hin]. by apply bool_decide_eq_true in Hin.
  - intros server Hs Hne log Hlog.
    assert (log ∈ server_filter a (level_filter a logs)) as Hin.
    { eapply elem_of_sublist; [exact Hlog|exact Hres_server]. }
    unfold server_filter in Hin. rewrite Hs in Hin. simpl in Hin.
    rewrite (proj2 (String.eqb_neq _ _) Hne) in Hin. simpl in Hin.
    apply elem_of_filter_bool in Hin as [_ Hin].
    apply orb_true_iff in Hin as [Hin|Hin].
    + left. by apply JsFacts.includes_spec.
    + right. by apply bool_decide_eq_true in Hin.
  - split; [|split].
    + intros n Hn Hpos. unfold result, get_logs, limit_filter. fold filtered.
      rewrite Hn, (proj2 (Z.eqb_neq _ _)) by lia.
      rewrite slice_from_negative by done. split; [done|].
      rewrite length_drop. lia.
    + unfold result, get_logs, limit_filter. fold filtered.
      by intros [-> | ->].
    + intros n Hn Hneg. unfold result, get_logs, limit_filter. fold filtered.
      rewrite Hn, (proj2 (Z.eqb_neq _ _)) by lia.
      unfold slice_from. by rewrite (proj2 (Z.ltb_ge _ _)) by lia.
Qed.

(** *** Uptime *)

Lemma uptime_decomposition (seconds : N) :
  (seconds = 86400 * (seconds / 86400) + 3600 * ((seconds mod 86400) / 3600)
             + 60 * ((seconds mod 3600) / 60) + seconds mod 60)%N.
Proof.
  pose proof (N.div_mod seconds 86400 ltac:(done)) as Hd.
  pose proof (N.div_mod (seconds mod 86400) 3600 ltac:(done)) as Hh.
  pose proof (N.div_mod (seconds mod 3600) 60 ltac:(done)) as Hm.
  assert (((seconds mod 86400) mod 3600) = seconds mod 3600)%N as Hh'.
  { change 86400%N with (3600 * 24)%N. by rewrite N.Div0.mod_mul_r, N.mul_comm,
      N.Div0.mod_add, N.Div0.mod_mod. }
  assert (((seconds mod 3600) mod 60) = seconds mod 60)%N as Hm'.
  { change 3600%N with (60 * 60)%N. by rewrite N.Div0.mod_mul_r, N.mul_comm,
      N.Div0.mod_add, N.Div0.mod_mod. }
  lia.
Qed.


End HubMonitoringFacts.

(** ** More facts about the vector search *)

Section VectorSearchCoverage.
Import VectorSearch.

Local Abbreviation sim := r_similarity.
Local Abbreviation desc := (StronglySorted (λ a b : RawResult, (sim b <= sim a)%Q)).

Lemma where_clause_weaker (th1 th2 : Q) (r : RawResult) :
  (th1 <= th2)%Q → where_clause th2 r = true → where_clause th1 r = true.
Proof.
  unfold where_clause. rewrite !Qgtb_lt. intros ? ?. by eapply Qle_lt_trans.
Qed.

Lemma where_clause_below (th : Q) (x y : RawResult) :
  (sim y <= sim x)%Q → where_clause th x = false → where_clause th y = false.
Proof.
  intros Hle Hx. destruct (where_clause th y) eqn:Hy; [|done].
  unfold where_clause in *. apply Qgtb_lt in Hy.
  assert (Qgtb (sim x) th = true) by (apply Qgtb_lt; by eapply Qlt_le_trans).
  congruence.
Qed.

Lemma filter_where_prefix (th1 th2 : Q) (l : list RawResult) :
  (th1 <= th2)%Q → desc l →
  List.filter (where_clause th2) l `prefix_of` List.filter (where_clause th1) l.
Proof.
  intros Hth. induction 1 as [|x xs Hsorted IH Hx]; simpl; [done|].
  destruct (where_clause th2 x) eqn:H2.
  - rewrite (where_clause_weaker th1 th2 x Hth H2). by apply prefix_cons.
  - rewrite (filter_bool_none (where_clause th2) xs); [apply prefix_nil|].
    eapply Forall_impl; [exact Hx|]. intros y Hy. simpl in Hy.
    by apply (where_clause_below th2 x y).
Qed.

Lemma take_prefix_le {A} (k1 k2 : nat) (l1 l2 : list A) :
  (k2 ≤ k1)%nat → l2 `prefix_of` l1 → take k2 l2 `prefix_of` take k1 l1.
Proof.
  intros Hk [t ->]. rewrite take_app.
  etrans; [|apply prefix_app_r; reflexivity].
  replace (take k2 l2) with (take k2 (take k1 l2))
    by (rewrite take_take; f_equal; lia).
  apply prefix_take.
Qed.


End VectorSearchCoverage.

(** ** Facts about access control, tokens and input cleaning *)

Section SecurityFacts.
Import MultiTenant Security.

Lemma canAccess_cases `{Ownable T} (resource : T) (user : User) :
  canAccess resource user =
    isAdmin user || (no_owner resource || owned_by resource user).
Proof.
  unfold canAccess, no_owner, owned_by. destruct (isAdmin user); [done|]. simpl.
  by destruct (negb (Js.truthy_str (owner resource))).
Qed.

Lemma filter_bool_all {A} (p : A → bool) (l : list A) :
  (∀ x, p x = true) → List.filter p l = l.
Proof.
  intros Hp. induction l as [|x l IH]; simpl; [done|]. by rewrite Hp, IH.
Qed.

(** The list filter and the single check agree: [filterByOwnership]
    keeps exactly the items that [canAccess] allows the user, in their
    order; so an item is listed if and only if it may be accessed. *)
Theorem filterByOwnership_agrees_with_canAccess
    `{Ownable T} (items : list T) (user : User) :
  filterByOwnership items user = List.filter (λ item, canAccess item user) items
  ∧ ∀ item, item ∈ filterByOwnership items user ↔
            item ∈ items ∧ canAccess item user = true.
Proof.
  assert (Heq : filterByOwnership items user =
                List.filter (λ item, canAccess item user) items).
  { unfold filterByOwnership. destruct (isAdmin user) eqn:Hadmin.
    - symmetry. apply filter_bool_all. intros x.
      by rewrite canAccess_cases, Hadmin.
    - apply List.filter_ext. intros x. by rewrite canAccess_cases, Hadmin. }
  split; [done|]. intros item. rewrite Heq, <- !list_elem_of_In || rewrite Heq.
  rewrite !list_elem_of_In, List.filter_In. done.
Qed.

(** *** Roles *)

Lemma eqb_true (a b : string) : String.eqb a b = true ↔ a = b.
Proof. apply String.eqb_eq. Qed.

Lemma checkPermission_VIEWER (user : AuthUser) (resource action : string) :
  au_role user = VIEWER →
  checkPermission user resource action = true ↔
  (resource = "servers" ∨ resource = "groups") ∧ action = "read".
Proof.
  intros Hr. unfold checkPermission. rewrite Hr.
  cbv [ROLE_PERMISSIONS existsb p_resource p_action].
  rewrite !orb_true_iff, !andb_true_iff, !orb_true_iff, !eqb_true.
  intuition (subst; auto; congruence).
Qed.

Lemma checkPermission_USER (user : AuthUser) (resource action : string) :
  au_role user = USER →
  checkPermission user resource action = true ↔
  ((resource = "servers" ∨ resource = "groups")
   ∧ (action = "read" ∨ action = "write"))
  ∨ (resource = "tools" ∧ action = "execute").
Proof.
  intros Hr. unfold checkPermission. rewrite Hr.
  cbv [ROLE_PERMISSIONS existsb p_resource p_action].
  rewrite !orb_true_iff, !andb_true_iff, !orb_true_iff, !eqb_true.
  intuition (subst; auto; congruence).
Qed.

(** X20: what each role may do.  The admin role may do everything; a
    viewer may only read servers and groups; a user may read and write
    servers and groups and execute tools, the scope [owned] of the write
    permissions playing no part; and whatever a viewer may do a user may
    do too. *)
Theorem checkPermission_by_role (user : AuthUser) (resource action : string) :
  (au_role user = ADMIN → checkPermission user resource action = true)
  ∧ (au_role user = VIEWER →
     (checkPermission user resource action = true ↔
      (resource = "servers" ∨ resource = "groups") ∧ action = "read"))
  ∧ (au_role user = USER →
     (checkPermission user resource action = true ↔
      ((resource = "servers" ∨ resource = "groups")
       ∧ (action = "read" ∨ action = "write"))
      ∨ (resource = "tools" ∧ action = "execute")))
  ∧ (∀ other, au_role user = VIEWER → au_role other = USER →
       checkPermission user resource action = true →
       checkPermission other resource action = true).
Proof.
  split; [|split; [|split]].
  - intros Hr. unfold checkPermission. by rewrite Hr.
  - apply checkPermission_VIEWER.
  - apply checkPermission_USER.
  - intros other Hv Hu Hc. apply (checkPermission_VIEWER _ _ _ Hv) in Hc.
    apply (checkPermission_USER _ _ _ Hu). tauto.
Qed.

(** X21: the middleware lets a request through exactly when it has a user
    who carries the admin flag or whose role has the permission; without
    a user the answer is 401, and otherwise 403 naming the missing
    permission as [action:resource].  The admin flag alone is enough,
    whatever the role. *)
Theorem authorize_verdict (resource action : string) (user : option AuthUser) :
  (authorize resource action user = Next ↔
   ∃ u, user = Some u ∧
        (au_isAdmin u = true ∨ checkPermission u resource action = true))
  ∧ (authorize resource action user = Status401 "Not authenticated" ↔
     user = None)
  ∧ (authorize resource action user ≠ Next → user ≠ None →
     authorize resource action user =
       Status403 "Insufficient permissions" (action ++ ":" ++ resource)).
Proof.
  unfold authorize. destruct user as [u|]; simpl.
  - destruct (au_isAdmin u) eqn:Ha; simpl.
    + split; [|split]; try done. split; [eauto|done].
    + destruct (checkPermission u resource action) eqn:Hc; simpl.
      * split; [|split]; try done. split; [eauto|done].
      * split; [|split]; try done. split; [done|].
        intros (u' & [= <-] & [?|?]); congruence.
  - split; [|split]; try done. split; [done|]. by intros (? & ? & _).
Qed.

(** *** Tokens *)

(** X22: where the token is taken from.  A header [Bearer t] gives [t],
    whatever the query and the cookie hold, also when [t] is empty; with
    no such header the query parameter is taken if it is not empty, then
    the cookie; and there is no token only if all three fail. *)
Theorem extractToken_precedence (req : Request) :
  (∀ t, authorization req = Some ("Bearer " ++ t) → extractToken req = Some t)
  ∧ ((∀ t, authorization req ≠ Some ("Bearer " ++ t)) →
     extractToken req =
       if Js.truthy_str (query_token req) then query_token req
       else if Js.truthy_str (cookie_token req) then cookie_token req
       else None)
  ∧ (extractToken req = None ↔
     (∀ t, authorization req ≠ Some ("Bearer " ++ t))
     ∧ Js.truthy_str (query_token req) = false
     ∧ Js.truthy_str (cookie_token req) = false).
Proof.
  assert (Hpre : ∀ h, String.prefix "Bearer " h = true ↔ ∃ t, h = "Bearer " ++ t).
  { intros h. apply JsFacts.prefix_spec. }
  assert (Hno : (∀ t, authorization req ≠ Some ("Bearer " ++ t)) →
     extractToken req =
       if Js.truthy_str (query_token req) then query_token req
       else if Js.truthy_str (cookie_token req) then cookie_token req
       else None).
  { intros Hn. unfold extractToken. destruct (authorization req) as [h|]; [|done].
    destruct (String.prefix "Bearer " h) eqn:Hp; [|done].
    apply Hpre in Hp as [t ->]. by destruct (Hn t). }
  assert (Hyes : ∀ t, authorization req = Some ("Bearer " ++ t) →
                      extractToken req = Some t).
  { intros t Ht. unfold extractToken. rewrite Ht.
    replace (String.prefix "Bearer " ("Bearer " ++ t)) with true
      by (symmetry; apply Hpre; eauto).
    done. }
  split; [done|]. split; [done|]. split.
  - intros Hnone.
    assert (Hn : ∀ t, authorization req ≠ Some ("Bearer " ++ t)).
    { intros t Ht. apply Hyes in Ht. congruence. }
    split; [done|]. rewrite (Hno Hn) in Hnone.
    destruct (Js.truthy_str (query_token req)) eqn:Hq.
    { rewrite Hnone in Hq. done. }
    destruct (Js.truthy_str (cookie_token req)) eqn:Hc; [|done].
    rewrite Hnone in Hc. done.
  - intros (Hn & Hq & Hc). by rewrite (Hno Hn), Hq, Hc.
Qed.

End SecurityFacts.

(** ** Facts about cleaning input *)

Section SanitizeFacts.
Import Security.

Lemma string_app_cons (x : Ascii.ascii) (a b : string) :
  String x a ++ b = String x (a ++ b).
Proof. done. Qed.

Lemma string_app_assoc (a b c : string) : (a ++ b) ++ c = a ++ (b ++ c).
Proof.
  induction a as [|x a IH]; [done|]. by rewrite !string_app_cons, IH.
Qed.

Lemma replace_char_app (c : Ascii.ascii) (by_ s1 s2 : string) :
  replace_char c by_ (s1 ++ s2) = replace_char c by_ s1 ++ replace_char c by_ s2.
Proof.
  induction s1 as [|x s1 IH]; [done|]. rewrite string_app_cons. simpl.
  destruct (Ascii.eqb x c); rewrite IH; [by rewrite string_app_assoc|done].
Qed.

Lemma sanitizeInput_app (s1 s2 : string) :
  sanitizeInput (s1 ++ s2) = sanitizeInput s1 ++ sanitizeInput s2.
Proof. unfold sanitizeInput. by rewrite !replace_char_app. Qed.

Lemma chars_app (s1 s2 : string) : chars (s1 ++ s2) = (chars s1 ++ chars s2)%list.
Proof.
  induction s1 as [|x s1 IH]; [done|]. rewrite string_app_cons. simpl.
  by rewrite IH.
Qed.

Lemma sanitizeInput_special (c : Ascii.ascii) :
  c ∈ special_chars →
  Forall (λ x, x ∉ special_chars) (chars (sanitizeInput (String c ""))).
Proof.
  intros Hin. unfold special_chars in Hin.
  repeat (apply elem_of_cons in Hin as [->|Hin]);
    [| | | | |by apply elem_of_nil in Hin];
    apply (bool_decide_unpack _); vm_compute; exact I.
Qed.

Lemma sanitizeInput_other (c : Ascii.ascii) :
  c ∉ special_chars → sanitizeInput (String c "") = String c "".
Proof.
  intros Hout.
  assert (Hne : ∀ d, d ∈ special_chars → Ascii.eqb c d = false).
  { intros d Hd. apply Ascii.eqb_neq. by intros ->. }
  unfold sanitizeInput. simpl.
  rewrite (Hne lt_char) by (unfold special_chars; repeat constructor). simpl.
  rewrite (Hne gt_char) by (unfold special_chars; repeat constructor). simpl.
  rewrite (Hne dq_char) by (unfold special_chars; repeat constructor). simpl.
  rewrite (Hne sq_char) by (unfold special_chars; repeat constructor). simpl.
  rewrite (Hne slash_char) by (unfold special_chars; repeat constructor).
  done.
Qed.

Lemma sanitizeInput_cons (c : Ascii.ascii) (s : string) :
  sanitizeInput (String c s) = sanitizeInput (String c "") ++ sanitizeInput s.
Proof. by rewrite <- sanitizeInput_app. Qed.

Lemma sanitizeInput_clean (s : string) :
  Forall (λ x, x ∉ special_chars) (chars s) → sanitizeInput s = s.
Proof.
  induction s as [|c s IH]; [done|]. simpl. intros [Hc Hs]%Forall_cons.
  by rewrite sanitizeInput_cons, (IH Hs), (sanitizeInput_other c Hc).
Qed.

Lemma sanitizeInput_no_special (s : string) :
  Forall (λ x, x ∉ special_chars) (chars (sanitizeInput s)).
Proof.
  induction s as [|c s IH]; [by constructor|].
  rewrite sanitizeInput_cons, chars_app. apply Forall_app. split; [|done].
  destruct (decide (c ∈ special_chars)) as [Hin|Hout].
  - by apply sanitizeInput_special.
  - rewrite (sanitizeInput_other c Hout). simpl. by repeat constructor.
Qed.

(** X23: the cleaned text holds none of the five characters [<], [>],
    double quote, single quote and [/]; a text without them is returned as
    it is; cleaning works character by character, so the parts of a text
    can be cleaned on their own; and cleaning a cleaned text changes
    nothing, for [&] is not among the characters replaced. *)
Theorem sanitizeInput_escapes (input : string) :
  Forall (λ c, c ∉ special_chars) (chars (sanitizeInput input))
  ∧ (Forall (λ c, c ∉ special_chars) (chars input) → sanitizeInput input = input)
  ∧ (∀ more, sanitizeInput (input ++ more) = sanitizeInput input ++ sanitizeInput more)
  ∧ sanitizeInput (sanitizeInput input) = sanitizeInput input.
Proof.
  split; [apply sanitizeInput_no_special|].
  split; [apply sanitizeInput_clean|].
  split; [intros more; apply sanitizeInput_app|].
  apply sanitizeInput_clean, sanitizeInput_no_special.
Qed.

End SanitizeFacts.

(** ** Facts about connecting with retries *)

Section ConnectionFacts.
Import Security.
Context (outcome : nat → Attempt).

(** What [connect] leaves behind after [k] failed passes that were
    retried. *)
Lemma connect_run (n : nat) : ∀ c : McpConnection,
  (maxRetries - retryCount c = n)%nat →
  ∃ settled c' k,
    connect (S n) outcome c = Some (settled, c')
    ∧ (k ≤ n)%nat
    ∧ attempts c' = (attempts c + S k)%nat
    ∧ slept c' = (slept c ++ map (λ i, 2 ^ i * 1000)%nat (seq (S (retryCount c)) k))%list
    ∧ (∀ j, (j < k)%nat → outcome (attempts c + j)%nat ≠ Connects)
    ∧ match settled with
      | Resolved =>
          outcome (attempts c + k)%nat = Connects
          ∧ status c' = connected ∧ retryCount c' = 0%nat
          ∧ keepAlives c' = S (keepAlives c)
      | Rejected e =>
          k = n
          ∧ (outcome (attempts c + k)%nat = TransportFails e
             ∨ outcome (attempts c + k)%nat = InitializeFails e)
          ∧ status c' = disconnected
          ∧ retryCount c' = (retryCount c + n)%nat
          ∧ keepAlives c' = keepAlives c
      end.
Proof.
  induction n as [|n IH]; intros c Hn.
  - assert (Hlt : (retryCount c <? maxRetries)%nat = false)
      by (apply Nat.ltb_ge; lia).
    cbn [connect]. rewrite Hlt.
    destruct (outcome (attempts c)) as [e|e|] eqn:Ho.
    + eexists _, _, 0%nat. split; [done|]. simpl.
      rewrite !Nat.add_0_r, app_nil_r, Ho.
      repeat split; auto with lia.
    + eexists _, _, 0%nat. split; [done|]. simpl.
      rewrite !Nat.add_0_r, app_nil_r, Ho.
      repeat split; auto with lia.
    + eexists _, _, 0%nat. split; [done|]. simpl.
      rewrite !Nat.add_0_r, app_nil_r, Ho.
      repeat split; auto with lia.
  - assert (Hlt : (retryCount c <? maxRetries)%nat = true)
      by (apply Nat.ltb_lt; lia).
    set (c1 := {| status := reconnecting;
                  retryCount := S (retryCount c);
                  attempts := S (attempts c);
                  slept := (slept c ++ [2 ^ S (retryCount c) * 1000])%list;
                  keepAlives := keepAlives c |}).
    assert (Hfail : outcome (attempts c) ≠ Connects →
      connect (S (S n)) outcome c = connect (S n) outcome c1).
    { intros Hne. change (connect (S (S n)) outcome c) with
        (let failed (error : string) :=
           if (retryCount c <? maxRetries)%nat
           then connect (S n) outcome c1
           else Some (Rejected error,
                      {| status := disconnected; retryCount := retryCount c;
                         attempts := S (attempts c); slept := slept c;
                         keepAlives := keepAlives c |}) in
         match outcome (attempts c) with
         | Connects =>
             Some (Resolved, {| status := connected; retryCount := 0;
                                attempts := S (attempts c); slept := slept c;
                                keepAlives := S (keepAlives c) |})
         | TransportFails error => failed error
         | InitializeFails error => failed error
         end).
      cbv zeta. rewrite Hlt. by destruct (outcome (attempts c)). }
    assert (Hstep : outcome (attempts c) ≠ Connects →
      ∃ settled c' k,
        connect (S (S n)) outcome c = Some (settled, c')
        ∧ (k ≤ S n)%nat
        ∧ attempts c' = (attempts c + S k)%nat
        ∧ slept c' = (slept c ++ map (λ i, 2 ^ i * 1000)%nat
                                   (seq (S (retryCount c)) k))%list
        ∧ (∀ j, (j < k)%nat → outcome (attempts c + j)%nat ≠ Connects)
        ∧ match settled with
          | Resolved =>
              outcome (attempts c + k)%nat = Connects
              ∧ status c' = connected ∧ retryCount c' = 0%nat
              ∧ keepAlives c' = S (keepAlives c)
          | Rejected e =>
              k = S n
              ∧ (outcome (attempts c + k)%nat = TransportFails e
                 ∨ outcome (attempts c + k)%nat = InitializeFails e)
              ∧ status c' = disconnected
              ∧ retryCount c' = (retryCount c + S n)%nat
              ∧ keepAlives c' = keepAlives c
          end).
    { intros Ho.
      destruct (IH c1) as (s & c' & k & Hc & Hk & Hat & Hsl & Hbefore & Hend);
        [unfold c1; cbn [retryCount]; lia|].
      exists s, c', (S k). split; [by rewrite (Hfail Ho)|].
      split; [lia|]. split; [simpl in Hat; lia|]. split.
      { rewrite Hsl. simpl. by rewrite <- app_assoc. }
      split.
      { intros j Hj. destruct j as [|j]; [by rewrite Nat.add_0_r|].
        replace (attempts c + S j)%nat with (attempts c1 + j)%nat by (simpl; lia).
        apply Hbefore. lia. }
      replace (attempts c + S k)%nat with (attempts c1 + k)%nat by (simpl; lia).
      destruct s as [|e]; simpl in Hend.
      * destruct Hend as (? & ? & ? & ?). done.
      * destruct Hend as (-> & ? & ? & ? & ?). repeat split; auto with lia. }
    destruct (outcome (attempts c)) as [e|e|] eqn:Ho; [by apply Hstep..|].
    eexists Resolved, _, 0%nat. split; [cbn [connect]; by rewrite Ho|]. simpl.
    rewrite !Nat.add_0_r, app_nil_r, Ho.
    repeat split; auto with lia.
Qed.

Lemma connect_more_fuel (fuel : nat) : ∀ (c : McpConnection) r,
  connect fuel outcome c = Some r → ∀ more, connect (fuel + more) outcome c = Some r.
Proof.
  induction fuel as [|fuel IH]; intros c r Hc more; [done|].
  cbn [connect Nat.add] in *.
  destruct (outcome (attempts c)); try done;
    destruct (retryCount c <? maxRetries)%nat; try done; by apply IH.
Qed.

Lemma connect_any_fuel (fuel : nat) (c : McpConnection) r :
  connect fuel outcome c = Some r →
  connect (S (maxRetries - retryCount c)) outcome c = Some r.
Proof.
  intros Hc.
  destruct (connect_run _ c eq_refl) as (s & c' & k & Hrun & _).
  destruct (decide (fuel ≤ S (maxRetries - retryCount c))%nat) as [Hle|Hgt].
  - replace (S (maxRetries - retryCount c))
      with (fuel + (S (maxRetries - retryCount c) - fuel))%nat by lia.
    by apply connect_more_fuel.
  - pose proof (connect_more_fuel _ _ _ Hrun
                  (fuel - S (maxRetries - retryCount c))) as Hmore.
    replace (S (maxRetries - retryCount c)
             + (fuel - S (maxRetries - retryCount c)))%nat with fuel in Hmore by lia.
    congruence.
Qed.

(** X24: [connect] always settles, after at most one pass more than the
    retries that are left.  Every failed pass but the last is followed by
    a sleep of [2 ^ retryCount] seconds, the count going up by one each
    time; the first pass that connects ends it with the status
    [connected], the retry count back at 0 and one keep-alive set up;
    when all the passes fail, it ends with the error of the last one, the
    status [disconnected] and the retry count left where it got to. *)
Theorem connect_retries_with_backoff (c : McpConnection) :
  let n := (maxRetries - retryCount c)%nat in
  ∃ settled c' k,
    (∀ fuel, (n < fuel)%nat → connect fuel outcome c = Some (settled, c'))
    ∧ (k ≤ n)%nat
    ∧ attempts c' = (attempts c + S k)%nat
    ∧ slept c' = (slept c ++ map (λ i, 2 ^ i * 1000)%nat
                               (seq (S (retryCount c)) k))%list
    ∧ (∀ j, (j < k)%nat → outcome (attempts c + j)%nat ≠ Connects)
    ∧ match settled with
      | Resolved =>
          outcome (attempts c + k)%nat = Connects
          ∧ status c' = connected ∧ retryCount c' = 0%nat
          ∧ keepAlives c' = S (keepAlives c)
      | Rejected e =>
          k = n
          ∧ (outcome (attempts c + k)%nat = TransportFails e
             ∨ outcome (attempts c + k)%nat = InitializeFails e)
          ∧ status c' = disconnected
          ∧ retryCount c' = (retryCount c + n)%nat
          ∧ keepAlives c' = keepAlives c
      end.
Proof.
  intros n.
  destruct (connect_run n c eq_refl) as (s & c' & k & Hrun & Hrest).
  exists s, c', k. split; [|exact Hrest].
  intros fuel Hfuel. replace fuel with (S n + (fuel - S n))%nat by lia.
  by apply connect_more_fuel.
Qed.

(** X25: a rejection does not give the retries back.  After [connect] has
    given up, the retry count stays at [maxRetries], so the next
    [connect] makes one pass only, without sleeping: it is rejected at
    once if that pass fails, and only a pass that connects sets the count
    back to 0. *)
Theorem connect_after_rejection
    (fuel : nat) (c c' : McpConnection) (e : string) :
  (retryCount c ≤ maxRetries)%nat →
  connect fuel outcome c = Some (Rejected e, c') →
  retryCount c' = maxRetries
  ∧ ∃ settled c'',
      (∀ fuel', (0 < fuel')%nat → connect fuel' outcome c' = Some (settled, c''))
      ∧ attempts c'' = S (attempts c')
      ∧ slept c'' = slept c'
      ∧ (settled = Resolved ↔ outcome (attempts c') = Connects)
      ∧ (settled = Resolved → retryCount c'' = 0%nat)
      ∧ (settled ≠ Resolved → retryCount c'' = maxRetries).
Proof.
  intros Hle Hc. apply connect_any_fuel in Hc.
  destruct (connect_run _ c eq_refl) as (s & c0 & k & Hrun & _ & _ & _ & _ & Hend).
  rewrite Hrun in Hc. injection Hc as -> ->.
  destruct Hend as (_ & _ & _ & Hcount & _).
  assert (Hmax : retryCount c' = maxRetries) by lia.
  split; [done|].
  destruct (connect_run 0 c') as (s & c'' & k' & Hrun' & Hk & Hat & Hsl & _ & Hend);
    [lia|].
  assert (k' = 0%nat) as -> by lia.
  rewrite Nat.add_0_r in Hend. simpl in Hsl. rewrite app_nil_r in Hsl.
  exists s, c''. split.
  { intros fuel' Hfuel. replace fuel' with (1 + (fuel' - 1))%nat by lia.
    by apply connect_more_fuel. }
  split; [lia|]. split; [done|].
  destruct s as [|e']; simpl in Hend.
  - destruct Hend as (Ho & _ & Hz & _). by repeat split.
  - destruct Hend as (_ & Ho & _ & Hcount' & _). repeat split; try done.
    + intros Hcon. destruct Ho as [Ho|Ho]; congruence.
    + intros _. lia.
Qed.

End ConnectionFacts.

(** ** Facts about batching, the threshold history and the cache *)

Section BatchFacts.
Import RoutingSupport.

Lemma chunk_loop_spec {T} (array : list T) (size : nat) :
  (0 < size)%nat →
  ∀ fuel i chunks,
    (length array - i ≤ fuel)%nat →
    ∃ rest,
      chunk_loop fuel array size i chunks = Some (chunks ++ rest)%list
      ∧ concat rest = drop i array
      ∧ (∀ j c, rest !! j = Some c →
           c = take size (drop (i + j * size) array) ∧ (0 < length c ≤ size)%nat)
      ∧ (length array - i ≤ length rest * size < length array - i + size)%nat.
Proof.
  intros Hsize. induction fuel as [|fuel IH]; intros i chunks Hfuel.
  - exists []. cbn [chunk_loop].
    assert (Hi : (i <? length array)%nat = false) by (apply Nat.ltb_ge; lia).
    rewrite Hi, app_nil_r. split; [done|]. split.
    { simpl. symmetry. apply drop_ge. lia. }
    split; [by intros j c ?|]. simpl. lia.
  - cbn [chunk_loop]. destruct (i <? length array)%nat eqn:Hi.
    + apply Nat.ltb_lt in Hi.
      destruct (IH (i + size)%nat (chunks ++ [slice i (i + size) array])%list)
        as (rest & Hloop & Hcat & Hidx & Hlen); [lia|].
      exists (slice i (i + size) array :: rest).
      assert (Hslice : slice i (i + size) array = take size (drop i array)).
      { unfold slice. f_equal. lia. }
      split; [by rewrite Hloop, <- app_assoc|]. split.
      { simpl. rewrite Hcat, Hslice, <- (drop_drop array size i).
        apply take_drop. }
      split.
      { intros [|j] c Hc; simpl in Hc.
        - injection Hc as <-. rewrite Hslice, Nat.add_0_r. split; [done|].
          rewrite length_take, length_drop. lia.
        - destruct (Hidx j c Hc) as [-> Hl]. split; [|done].
          do 2 f_equal. lia. }
      simpl. destruct (decide (size ≤ length array - i)%nat); [lia|].
      assert (length rest = 0%nat) by nia. lia.
    + apply Nat.ltb_ge in Hi. exists []. rewrite app_nil_r. split; [done|]. split.
      { simpl. symmetry. apply drop_ge. lia. }
      split; [by intros j c ?|]. simpl. lia.
Qed.

Lemma chunk_spec {T} (array : list T) (size : nat) :
  (0 < size)%nat →
  ∃ chunks,
    chunk array size = Some chunks
    ∧ concat chunks = array
    ∧ (∀ j c, chunks !! j = Some c →
         c = take size (drop (j * size) array) ∧ (0 < length c ≤ size)%nat)
    ∧ (length array ≤ length chunks * size < length array + size)%nat.
Proof.
  intros Hsize.
  destruct (chunk_loop_spec array size Hsize (length array) 0 [])
    as (chunks & Hc & Hcat & Hidx & Hlen); [lia|].
  exists chunks. split; [done|]. split; [done|]. split; [done|]. lia.
Qed.

Section WithCreate.
Context {Embedding : Type} (create : list string → option (list Embedding)).

Local Abbreviation embed_batches := (RoutingSupport.embed_batches Embedding create).
Local Abbreviation processBatch := (RoutingSupport.processBatch Embedding create).

Lemma embed_batches_requests (batches : list (list string)) :
  ∀ results requests,
  ∃ out made,
    embed_batches batches results requests = (out, (requests ++ made)%list)
    ∧ made `prefix_of` batches
    ∧ out ≠ Pending
    ∧ (out = RejectedPromise ↔ ∃ batch, last made = Some batch ∧ create batch = None)
    ∧ (out ≠ RejectedPromise → made = batches).
Proof.
  induction batches as [|batch rest IH]; intros results requests.
  - exists (Fulfilled results), []. simpl. rewrite app_nil_r.
    repeat split; try done. by intros (? & ? & _).
  - simpl. destruct (create batch) as [data|] eqn:Hcreate.
    + destruct (IH (results ++ data)%list (requests ++ [batch])%list)
        as (out & made & Hrun & Hpre & Hpend & Hrej & Hall).
      exists out, (batch :: made). rewrite Hrun, <- app_assoc. simpl.
      split; [done|]. split; [by apply prefix_cons|]. split; [done|]. split.
      * rewrite Hrej. split; intros (b & Hlast & Hb); exists b; split; try done.
        -- destruct made; [done|]. done.
        -- destruct made as [|m made]; [|done]. simpl in Hlast. congruence.
      * intros Hne. by rewrite (Hall Hne).
    + exists RejectedPromise, [batch]. split; [done|].
      split; [apply prefix_cons, prefix_nil|]. split; [done|]. split; [|done].
      split; [|done]. intros _. by exists batch.
Qed.

Lemma embed_batches_elementwise (embed : string → Embedding)
    (batches : list (list string)) :
  (∀ batch, batch ∈ batches → create batch = Some (map embed batch)) →
  ∀ results requests,
    embed_batches batches results requests =
      (Fulfilled (results ++ map embed (concat batches))%list,
       (requests ++ batches)%list).
Proof.
  induction batches as [|batch rest IH]; intros Hcreate results requests; simpl.
  - by rewrite !app_nil_r.
  - rewrite Hcreate by left. rewrite IH by (intros b Hb; apply Hcreate; by right).
    by rewrite map_app, <- !app_assoc.
Qed.

(** X26: [processBatch] always settles.  It cuts the items into
    consecutive batches of [batchSize] = 100, the last one shorter when
    the number is not a multiple, none empty, and sends them in order, one
    request each, up to the first request that fails; it is rejected
    exactly when the last request it sent failed, and the embeddings of
    the requests before are then lost.  When every request is answered
    item by item, the result is the embeddings of the items in their
    order. *)
Theorem processBatch_requests (items : list string) :
  ∃ batches out requests,
    processBatch items = (out, requests)
    ∧ concat batches = items
    ∧ (∀ j batch, batches !! j = Some batch →
         batch = take batchSize (drop (j * batchSize) items)
         ∧ (0 < length batch ≤ batchSize)%nat)
    ∧ (length items ≤ length batches * batchSize < length items + batchSize)%nat
    ∧ requests `prefix_of` batches
    ∧ out ≠ Pending
    ∧ (out = RejectedPromise ↔
       ∃ batch, last requests = Some batch ∧ create batch = None)
    ∧ (out ≠ RejectedPromise → requests = batches)
    ∧ (∀ embed : string → Embedding,
         (∀ batch, batch ∈ batches → create batch = Some (map embed batch)) →
         out = Fulfilled (map embed items)).
Proof.
  destruct (chunk_spec items batchSize) as (batches & Hchunk & Hcat & Hidx & Hlen);
    [unfold batchSize; lia|].
  destruct (embed_batches_requests batches [] [])
    as (out & made & Hrun & Hpre & Hpend & Hrej & Hall).
  exists batches, out, made. unfold RoutingSupport.processBatch. rewrite Hchunk.
  split; [done|]. do 7 (split; [done|]).
  intros embed Hcreate.
  rewrite (embed_batches_elementwise embed batches Hcreate) in Hrun.
  injection Hrun as <- _. by rewrite Hcat.
Qed.

End WithCreate.

Lemma recordResult_window (successHistory : list bool) (wasRelevant : bool) :
  (length successHistory ≤ historyWindow)%nat →
  recordResult successHistory wasRelevant =
    drop (length successHistory + 1 - historyWindow)
         (successHistory ++ [wasRelevant])%list.
Proof.
  intros Hlen. unfold recordResult. rewrite length_app. simpl.
  destruct (historyWindow <? length successHistory + 1)%nat eqn:Hw.
  - apply Nat.ltb_lt in Hw. f_equal. lia.
  - apply Nat.ltb_ge in Hw.
    by replace (length successHistory + 1 - historyWindow)%nat with 0%nat by lia.
Qed.

(** X27: the history is a sliding window: after any number of recorded
    outcomes it holds the last [historyWindow] = 100 of them (with what
    was there before, if they are fewer), oldest first, and so never more
    than 100. *)
Theorem recordResult_keeps_last_window
    (successHistory : list bool) (outcomes : list bool) :
  (length successHistory ≤ historyWindow)%nat →
  let history := foldl recordResult successHistory outcomes in
  history = drop (length successHistory + length outcomes - historyWindow)
                 (successHistory ++ outcomes)%list
  ∧ length history = (length successHistory + length outcomes) `min` historyWindow.
Proof.
  intros Hlen history.
  assert (Heq : history =
    drop (length successHistory + length outcomes - historyWindow)
         (successHistory ++ outcomes)%list).
  { subst history. revert successHistory Hlen.
    induction outcomes as [|b outcomes IH]; intros h Hlen; simpl.
    - rewrite app_nil_r, Nat.add_0_r.
      by replace (length h - historyWindow)%nat with 0%nat by lia.
    - assert (Hh : (length (recordResult h b) ≤ historyWindow)%nat).
      { rewrite (recordResult_window h b Hlen), length_drop, length_app.
        simpl. lia. }
      rewrite (IH _ Hh), (recordResult_window h b Hlen).
      set (d := (length h + 1 - historyWindow)%nat).
      rewrite length_drop, length_app. simpl.
      replace (h ++ b :: outcomes)%list with ((h ++ [b]) ++ outcomes)%list
        by (by rewrite <- app_assoc).
      rewrite <- (drop_app_le (h ++ [b]) outcomes d)
        by (rewrite length_app; simpl; lia).
      rewrite drop_drop. f_equal. lia. }
  split; [done|]. rewrite Heq, length_drop, length_app. lia.
Qed.

End BatchFacts.

(** ** Facts about the embedding cache *)

Section CacheFacts.
Import RoutingSupport.
Context {Embedding : Type}.
Context (hash : string → string).
Context (generateEmbedding : string → option Embedding).

Local Abbreviation getEmbedding :=
  (RoutingSupport.getEmbedding Embedding hash generateEmbedding).

Lemma getEmbedding_hit (now later : Z) (text : string)
    (c : EmbeddingCache Embedding) (cached : CachedEmbedding Embedding) :
  cache c !! hash text = Some cached →
  (now - timestamp cached < ttl)%Z →
  getEmbedding now later text c = (Fulfilled (embedding cached), c).
Proof.
  intros Hc Ht. unfold RoutingSupport.getEmbedding. rewrite Hc.
  by rewrite (proj2 (Z.ltb_lt _ _) Ht).
Qed.

(** X28: an embedding that [getEmbedding] has returned is served from the
    cache until [ttl] = one hour after it was stored: a later call for a
    text with the same digest gets the same embedding, without a call of
    [generateEmbedding] and without any change of the cache; being served
    does not make the entry younger.  One call sends at most one text to
    [generateEmbedding], touches no entry but the text's own, and stores
    nothing when the generation fails. *)
Theorem getEmbedding_serves_from_cache
    (now later : Z) (text : string) (c c1 : EmbeddingCache Embedding)
    (out : Promise Embedding) :
  getEmbedding now later text c = (out, c1) →
  (∀ e, out = Fulfilled e →
     ∃ cached,
       cache c1 !! hash text = Some cached
       ∧ embedding cached = e
       ∧ (c1 = c ∨ (timestamp cached = later ∧ generateEmbedding text = Some e))
       ∧ ∀ now' later' text',
           hash text' = hash text →
           (now' - timestamp cached < ttl)%Z →
           getEmbedding now' later' text' c1 = (Fulfilled e, c1))
  ∧ (out = RejectedPromise → cache c1 = cache c ∧ generateEmbedding text = None)
  ∧ out ≠ Pending
  ∧ (∀ text', hash text' ≠ hash text →
       cache c1 !! hash text' = cache c !! hash text')
  ∧ (generated c1 = generated c ∨ generated c1 = (generated c ++ [text])%list).
Proof.
  intros Hget. unfold RoutingSupport.getEmbedding in Hget. revert Hget.
  destruct (cache c !! hash text) as [cached|] eqn:Hc.
  - destruct (now - timestamp cached <? ttl)%Z eqn:Ht.
    + intros [= <- <-]. apply Z.ltb_lt in Ht.
      split; [|by repeat split; auto].
      intros e [= <-]. exists cached. repeat split; auto.
      intros now' later' text' Hh Ht'. apply getEmbedding_hit; by rewrite ?Hh.
    + destruct (generateEmbedding text) as [e|] eqn:Hg.
      * intros [= <- <-]. simpl. split.
        { intros e' [= <-]. eexists. rewrite lookup_insert_eq.
          split; [done|]. split; [done|]. split; [by right|].
          intros now' later' text' Hh Ht'.
          apply (getEmbedding_hit _ _ _ _ {| embedding := e; timestamp := later |}).
          - simpl. by rewrite Hh, lookup_insert_eq.
          - done. }
        split; [done|]. split; [done|]. split; [|by right].
        intros text' Hne. by rewrite lookup_insert_ne.
      * intros [= <- <-]. simpl. repeat split; auto; done.
  - destruct (generateEmbedding text) as [e|] eqn:Hg.
    + intros [= <- <-]. simpl. split.
      { intros e' [= <-]. eexists. rewrite lookup_insert_eq.
        split; [done|]. split; [done|]. split; [by right|].
        intros now' later' text' Hh Ht'.
        apply (getEmbedding_hit _ _ _ _ {| embedding := e; timestamp := later |}).
        - simpl. by rewrite Hh, lookup_insert_eq.
        - done. }
      split; [done|]. split; [done|]. split; [|by right].
      intros text' Hne. by rewrite lookup_insert_ne.
    + intros [= <- <-]. simpl. repeat split; auto; done.
Qed.

End CacheFacts.

(** ** Facts about reading a chunked response *)

Section StreamingFacts.
Import Streaming.

Lemma string_app_nil_r (a : string) : a ++ "" = a.
Proof. induction a as [|x a IH]; [done|]. by rewrite string_app_cons, IH. Qed.

Lemma split_cons (c : Ascii.ascii) (t : string) :
  split (String c t) =
    match t with
    | String c' t' =>
        if Ascii.eqb c newline && Ascii.eqb c' newline
        then EmptyString :: split t'
        else prepend c (split t)
    | EmptyString => prepend c (split t)
    end.
Proof. by destruct t. Qed.

Lemma split_last (s : string) : ∃ ms r, split s = (ms ++ [r])%list.
Proof.
  assert (H : ∀ s, (∃ ms r, split s = (ms ++ [r])%list)
                   ∧ ∀ c, ∃ ms r, split (String c s) = (ms ++ [r])%list).
  { clear s. induction s as [|c' s [IH1 IH2]].
    - split; [by exists [], ""|]. intros c. by exists [], (String c "").
    - split; [apply IH2|]. intros c. rewrite split_cons.
      destruct (Ascii.eqb c newline && Ascii.eqb c' newline).
      + destruct IH1 as (ms & r & ->). by exists ("" :: ms), r.
      + destruct (IH2 c') as (ms & r & ->).
        destruct ms as [|m ms]; simpl.
        * by exists [], (String c r).
        * by exists (String c m :: ms), r. }
  apply H.
Qed.

Lemma prepend_app (c : Ascii.ascii) (m : string) (ms rest : list string) :
  prepend c ((m :: ms) ++ rest) = (prepend c (m :: ms) ++ rest)%list.
Proof. done. Qed.

(** A text without two newlines in a row is one piece. *)
Lemma split_one (s r : string) : split s = [r] → s = r.
Proof.
  assert (H : ∀ s, (∀ r, split s = [r] → s = r)
                   ∧ ∀ c r, split (String c s) = [r] → String c s = r).
  { clear s r. induction s as [|c' s [IH1 IH2]].
    - split; [by intros r [= <-]|]. by intros c r [= <-].
    - split; [apply IH2|]. intros c r. rewrite split_cons.
      destruct (Ascii.eqb c newline && Ascii.eqb c' newline).
      + intros [= <- Hnil]. destruct (split_last s) as (ms & r' & Hs).
        rewrite Hs in Hnil. by destruct ms.
      + destruct (split_last (String c' s)) as (ms & r' & Hs). rewrite Hs.
        destruct ms as [|m ms]; simpl.
        * intros [= <-]. by rewrite (IH2 c' r' Hs).
        * intros [= _ Hnil]. by destruct ms. }
  apply H.
Qed.

(** Splitting a text that goes on: the complete pieces stay, and the
    last piece is split again with what follows. *)
Lemma split_app (y : string) (x : string) :
  ∀ ms r, split x = (ms ++ [r])%list →
          split (x ++ y) = (ms ++ split (r ++ y))%list.
Proof.
  assert (H : ∀ x,
    (∀ ms r, split x = (ms ++ [r])%list →
             split (x ++ y) = (ms ++ split (r ++ y))%list)
    ∧ ∀ c ms r, split (String c x) = (ms ++ [r])%list →
                split (String c x ++ y) = (ms ++ split (r ++ y))%list).
  { clear x. induction x as [|c' x [IH1 IH2]].
    - split.
      + intros ms r Hs. destruct ms as [|m [|m' ms]]; simpl in Hs; try done.
        by injection Hs as <-.
      + intros c ms r Hs. destruct ms as [|m [|m' ms]]; simpl in Hs; try done.
        by injection Hs as <-.
    - split; [apply IH2|]. intros c ms r.
      rewrite !string_app_cons, (split_cons c (String c' x)),
        (split_cons c (String c' (x ++ y))).
      destruct (Ascii.eqb c newline && Ascii.eqb c' newline) eqn:Hnl.
      + intros Hs. destruct ms as [|m ms]; simpl in Hs.
        * injection Hs as _ Hnil. destruct (split_last x) as (ms' & r' & Hx).
          rewrite Hx in Hnil. by destruct ms'.
        * injection Hs as <- Hx. simpl. f_equal. by apply IH1.
      + intros Hs. rewrite <- string_app_cons.
        destruct (split_last (String c' x)) as (ms' & r' & Hx).
        rewrite Hx in Hs. rewrite (IH2 c' ms' r' Hx).
        destruct ms' as [|m' ms'].
        * simpl in Hs. destruct ms as [|? [|? ?]]; simpl in Hs; try done.
          injection Hs as <-. simpl.
          assert (String c' x = r') as <- by (by apply split_one).
          by rewrite (string_app_cons c' x y), Hnl.
        * rewrite prepend_app. simpl in Hs. simpl.
          destruct ms as [|m ms]; simpl in Hs.
          { by destruct ms'. }
          injection Hs as <- Hrest. apply app_inj_tail in Hrest as [<- <-].
          done. }
  apply H.
Qed.

Section WithParse.
Context {Data : Type} (parse : string → option Data).

Local Abbreviation handle_messages := (Streaming.handle_messages Data parse).
Local Abbreviation processChunk := (Streaming.processChunk Data parse).
Local Abbreviation processChunks := (Streaming.processChunks Data parse).

Lemma handle_messages_app (m1 m2 : list string) (handled : list Data) :
  handle_messages (m1 ++ m2) handled =
    match handle_messages m1 handled with
    | (true, handled1) => handle_messages m2 handled1
    | (false, handled1) => (false, handled1)
    end.
Proof.
  revert handled. induction m1 as [|m m1 IH]; intros handled.
  - simpl. by destruct (handle_messages m2 handled) as [[] ?].
  - rewrite <- app_comm_cons. cbn [Streaming.handle_messages].
    destruct (String.prefix "data: " m); [|apply IH].
    destruct (parse (Security.substring_from 6 m)); [apply IH|done].
Qed.

Lemma removelast_snoc {A} (l : list A) (x : A) :
  removelast (l ++ [x]) = l.
Proof. apply removelast_last. Qed.

Lemma processChunk_pieces (chunk : string) (sp : StreamProcessor Data)
    (ms : list string) (r : string) :
  split (buffer sp ++ chunk) = (ms ++ [r])%list →
  processChunk chunk sp =
    ((handle_messages ms (handled sp)).1,
     {| buffer := r; handled := (handle_messages ms (handled sp)).2 |}).
Proof.
  intros Hs. unfold Streaming.processChunk. rewrite Hs, removelast_snoc, last_snoc.
  by destruct (handle_messages ms (handled sp)).
Qed.

(** Two chunks, one after the other or joined. *)
Lemma processChunk_two (c1 c2 : string) (sp : StreamProcessor Data) :
  let first := processChunk c1 sp in
  let whole := processChunk (c1 ++ c2) sp in
  if first.1
  then processChunk c2 first.2 = whole
  else whole.1 = false ∧ handled whole.2 = handled first.2.
Proof.
  destruct (split_last (buffer sp ++ c1)) as (ms1 & r1 & Hs1).
  destruct (split_last (r1 ++ c2)) as (ms2 & r2 & Hs2).
  assert (Hs : split (buffer sp ++ (c1 ++ c2)) = ((ms1 ++ ms2) ++ [r2])%list).
  { rewrite <- app_assoc, <- Hs2. rewrite <- (split_app c2 _ ms1 r1 Hs1).
    by rewrite string_app_assoc. }
  cbv zeta.
  rewrite (processChunk_pieces c1 sp ms1 r1 Hs1),
    (processChunk_pieces (c1 ++ c2) sp (ms1 ++ ms2) r2 Hs).
  rewrite handle_messages_app.
  destruct (handle_messages ms1 (handled sp)) as [[] h1] eqn:H1; simpl.
  - by rewrite (processChunk_pieces c2 {| buffer := r1; handled := h1 |} ms2 r2 Hs2).
  - done.
Qed.

(** X29: it does not matter how the response is cut into chunks.  Feeding
    the chunks one by one handles the same messages, in the same order,
    as feeding the whole text at once, and fails to parse in the one case
    exactly when it fails in the other; when it does not fail, the text
    kept in the buffer is the same too. *)
Theorem processChunk_cut_anywhere
    (chunk : string) (chunks : list string) (sp : StreamProcessor Data) :
  let separate := processChunks (chunk :: chunks) sp in
  let whole := processChunk (foldr String.append "" (chunk :: chunks)) sp in
  separate.1 = whole.1
  ∧ handled separate.2 = handled whole.2
  ∧ (separate.1 = true → separate.2 = whole.2).
Proof.
  revert chunk sp. induction chunks as [|c2 chunks IH]; intros c1 sp.
  - simpl. rewrite string_app_nil_r.
    by destruct (processChunk c1 sp) as [[] ?].
  - specialize (IH c2). cbv zeta in IH.
    pose proof (processChunk_two c1 (foldr String.append "" (c2 :: chunks)) sp)
      as Htwo.
    cbv zeta in Htwo |- *.
    change (foldr String.append "" (c1 :: c2 :: chunks))
      with (c1 ++ foldr String.append "" (c2 :: chunks)).
    change (processChunks (c1 :: c2 :: chunks) sp)
      with (match processChunk c1 sp with
            | (true, sp') => processChunks (c2 :: chunks) sp'
            | (false, sp') => (false, sp')
            end).
    destruct (processChunk c1 sp) as [[] sp1]; cbn [fst snd] in Htwo.
    + rewrite <- Htwo. apply IH.
    + destruct Htwo as [-> ->]. done.
Qed.

Lemma split_last_piece (s : string) (ms : list string) (r : string) :
  split s = (ms ++ [r])%list → split r = [r].
Proof.
  intros Hs. pose proof (split_app "" s ms r Hs) as Happ.
  rewrite !string_app_nil_r, Hs in Happ. by apply app_inv_head in Happ.
Qed.

Lemma handle_messages_spec (messages : list string) : ∀ handled0 : list Data,
  ∃ datas,
    (handle_messages messages handled0).2 = (handled0 ++ datas)%list
    ∧ if (handle_messages messages handled0).1
      then Forall2 (λ m d, parse (Security.substring_from 6 m) = Some d)
             (List.filter (String.prefix "data: ") messages) datas
      else ∃ before bad after,
             messages = (before ++ bad :: after)%list
             ∧ String.prefix "data: " bad = true
             ∧ parse (Security.substring_from 6 bad) = None
             ∧ Forall2 (λ m d, parse (Security.substring_from 6 m) = Some d)
                 (List.filter (String.prefix "data: ") before) datas.
Proof.
  induction messages as [|m messages IH]; intros handled0.
  - exists []. simpl. by rewrite app_nil_r.
  - cbn [Streaming.handle_messages List.filter].
    destruct (String.prefix "data: " m) eqn:Hp.
    + destruct (parse (Security.substring_from 6 m)) as [d|] eqn:Hd.
      * destruct (IH (handled0 ++ [d])%list) as (datas & Hh & Hrest).
        exists (d :: datas). rewrite Hh, <- app_assoc. split; [done|].
        destruct (handle_messages messages (handled0 ++ [d])).1.
        -- by constructor.
        -- destruct Hrest as (before & bad & after & -> & ? & ? & ?).
           exists (m :: before), bad, after. repeat split; try done.
           cbn [List.filter]. rewrite Hp. by constructor.
      * exists []. simpl. rewrite app_nil_r. split; [done|].
        exists [], m, messages. by repeat split.
    + destruct (IH handled0) as (datas & Hh & Hrest).
      exists datas. split; [done|].
      destruct (handle_messages messages handled0).1; [done|].
      destruct Hrest as (before & bad & after & -> & ? & ? & ?).
      exists (m :: before), bad, after. repeat split; try done.
      cbn [List.filter]. by rewrite Hp.
Qed.

(** X30: what one chunk does.  The text up to the last blank line is cut
    into messages, and the rest is kept in the buffer, which therefore
    never holds a blank line.  The messages that start with [data: ] are
    parsed and handled in order, the others are skipped.  When one fails
    to parse, the messages before it have been handled, and it and the
    complete messages after it are dropped: they are not in the buffer
    either. *)
Theorem processChunk_handles_data_messages
    (chunk : string) (sp : StreamProcessor Data) :
  let pieces := split (buffer sp ++ chunk) in
  let messages := removelast pieces in
  let result := processChunk chunk sp in
  (pieces = messages ++ [buffer result.2])%list
  ∧ split (buffer result.2) = [buffer result.2]
  ∧ ∃ datas,
      handled result.2 = (handled sp ++ datas)%list
      ∧ if result.1
        then Forall2 (λ m d, parse (Security.substring_from 6 m) = Some d)
               (List.filter (String.prefix "data: ") messages) datas
        else ∃ before bad after,
               messages = (before ++ bad :: after)%list
               ∧ String.prefix "data: " bad = true
               ∧ parse (Security.substring_from 6 bad) = None
               ∧ Forall2 (λ m d, parse (Security.substring_from 6 m) = Some d)
                   (List.filter (String.prefix "data: ") before) datas.
Proof.
  destruct (split_last (buffer sp ++ chunk)) as (ms & r & Hs).
  cbv zeta. rewrite (processChunk_pieces chunk sp ms r Hs), Hs, removelast_snoc.
  cbn [fst snd buffer handled].
  split; [done|]. split; [by apply (split_last_piece (buffer sp ++ chunk) ms)|].
  apply handle_messages_spec.
Qed.

End WithParse.

End StreamingFacts.


(** ** The further facts on sample data *)

Section CoverageWitnesses.
Import Hub HubViews Samples CoverageSamples.

Local Abbreviation executeTool := (Hub.executeTool no_connect no_collaborator).

Lemma failed_tool_changes_nothing_witness :
  (executeTool "add_server" add_echo_args (world_of empty_settings)).2
  = world_of empty_settings.
Proof.
  apply (failed_tool_changes_nothing no_connect no_collaborator
           "add_server" add_echo_args (world_of empty_settings) _
           "Command is required for stdio servers").
  - apply (bool_decide_unpack _). vm_compute. exact I.
  - reflexivity.
Defined.

Lemma reading_tools_only_read_witness :
  ∃ result,
    executeTool "list_all_tools" no_args (world_of overlay_settings)
    = (Returns result, world_of overlay_settings).
Proof.
  apply (reading_tools_only_read no_connect no_collaborator).
  apply (bool_decide_unpack _). vm_compute. exact I.
Defined.


Lemma add_server_then_add_or_delete_witness :
  let w1 := (executeTool "add_server" add_cat_args (world_of empty_settings)).2 in
  executeTool "add_server" add_cat_args w1
  = (Throws ("Server " ++ quoted "cat" ++ " already exists"), w1)
  ∧ ∃ result2 w2,
      executeTool "delete_server" add_cat_args w1 = (Returns result2, w2)
      ∧ ∀ n, server_of (settings_file w2) n = server_of empty_settings n.
Proof.
  intros w1.
  exact (add_server_then_add_or_delete no_connect no_collaborator add_cat_args
           (world_of empty_settings) w1
           (RStatus true ("Server " ++ quoted "cat" ++ " added successfully"))
           eq_refl).
Defined.

Lemma server_without_enabled_flag_witness :
  (∃ servers sm,
      executeTool "list_servers" no_args (world_of unflagged_settings)
      = (Returns (RServers servers), world_of unflagged_settings)
      ∧ sm ∈ servers ∧ ss_name sm = "A" ∧ ss_enabled sm = true)
  ∧ ∃ allTools,
      executeTool "list_all_tools" no_args (world_of unflagged_settings)
      = (Returns (RTools allTools), world_of unflagged_settings)
      ∧ ∀ e, e ∈ allTools → te_server e ≠ "A".
Proof.
  exact (server_without_enabled_flag no_connect no_collaborator no_args
           (world_of unflagged_settings) "A" unflagged_server
           eq_refl eq_refl eq_refl).
Defined.


Lemma update_server_overwrites_given_fields_witness :
  ∃ w' c',
    executeTool "update_server" toggle_weather_args (world_of overlay_settings)
    = (Returns (RStatus true ("Server " ++ quoted "A" ++ " updated successfully")), w')
    ∧ server_of (settings_file w') "A" = Some c'
    ∧ command c' = Some "/bin/echo"
    ∧ tools c' = tools overlay_server.
Proof.
  destruct (update_server_overwrites_given_fields no_connect no_collaborator
              toggle_weather_args (world_of overlay_settings) overlay_server
              eq_refl)
    as (w' & c' & Hex & Hc & Hcmd & _ & _ & _ & _ & _ & Htools & _).
  by exists w', c'.
Defined.

Lemma toggle_server_then_list_witness :
  let w := world_of overlay_settings in
  let w' := (executeTool "toggle_server" toggle_weather_args w).2 in
  (∀ n, n ∈ map ss_name (listed_servers no_args w') ↔
        if decide (n = "A") then a_enabled toggle_weather_args ≠ Some false
        else n ∈ map ss_name (listed_servers no_args w))
  ∧ (a_enabled toggle_weather_args ≠ Some true →
     ∀ t, ¬ tool_listed no_args w' "A" t).
Proof.
  intros w w'.
  exact (toggle_server_then_list no_connect no_collaborator
           toggle_weather_args no_args w overlay_server eq_refl eq_refl).
Defined.



Lemma import_validation_witness :
  (∃ result w',
      executeTool "import_configuration" (import_args overlay_settings (Some true))
        (world_of empty_settings) = (Returns result, w')) ↔
  (is_Some (mcpServers overlay_settings)
   ∨ truthy_json (groups overlay_settings) = true)
  ∧ ∀ n c, server_of overlay_settings n = Some c → server_acceptable c.
Proof.
  exact (proj1 (import_validation no_connect no_collaborator
                  (import_args overlay_settings (Some true))
                  (world_of empty_settings) eq_refl)).
Defined.

Lemma connection_status_per_server_witness :
  ∃ statuses,
    get_connection_status (world_of overlay_settings)
    = (Returns statuses, world_of overlay_settings)
    ∧ map (λ st, (cs_name st, cs_enabled st, cs_connected st, cs_type st)) statuses
      = map (λ sm, (ss_name sm, ss_enabled sm, ss_connected sm, ss_type sm))
          (listed_servers (listing_args (Some true)) (world_of overlay_settings))
    ∧ NoDup (map cs_name statuses).
Proof.
  destruct (connection_status_per_server (listing_args (Some true))
              (world_of overlay_settings) eq_refl)
    as (statuses & Hex & Hsame & Hnodup & _).
  by exists statuses.
Defined.

End CoverageWitnesses.

Section MoreWitnesses.
Import CoverageSamples.


Lemma connect_after_rejection_witness :
  Security.connect 4 always_refused Security.fresh
  = Some (Security.Rejected "refused", given_up)
  ∧ Security.retryCount given_up = Security.maxRetries
  ∧ ∃ settled c'',
      (∀ fuel', (0 < fuel')%nat →
         Security.connect fuel' always_refused given_up = Some (settled, c''))
      ∧ Security.attempts c'' = S (Security.attempts given_up)
      ∧ Security.slept c'' = Security.slept given_up.
Proof.
  split; [reflexivity|].
  destruct (connect_after_rejection always_refused 4 Security.fresh given_up
              "refused")
    as (Hcount & settled & c'' & Hrun & Hattempts & Hslept & _).
  - unfold Security.maxRetries. simpl. lia.
  - reflexivity.
  - split; [exact Hcount|]. by exists settled, c''.
Defined.

Lemma recordResult_keeps_last_window_witness :
  let history := foldl RoutingSupport.recordResult [true] [false; true] in
  history = drop (1 + 2 - RoutingSupport.historyWindow) ([true] ++ [false; true])%list
  ∧ length history = (1 + 2) `min` RoutingSupport.historyWindow.
Proof.
  intros history.
  apply (recordResult_keeps_last_window [true] [false; true]).
  unfold RoutingSupport.historyWindow. simpl. lia.
Defined.

Lemma getEmbedding_serves_from_cache_witness :
  let get := RoutingSupport.getEmbedding nat plain_digest length_embedding in
  let c1 := (get 0%Z 5%Z "hello" empty_cache).2 in
  get 0%Z 5%Z "hello" empty_cache = (RoutingSupport.Fulfilled 5%nat, c1)
  ∧ RoutingSupport.generated c1 = ["hello"]
  ∧ ∀ now' later',
      (now' - 5 < RoutingSupport.ttl)%Z →
      get now' later' "hello" c1 = (RoutingSupport.Fulfilled 5%nat, c1).
Proof.
  intros get c1. split; [reflexivity|]. split; [reflexivity|].
  destruct (getEmbedding_serves_from_cache plain_digest length_embedding
              0%Z 5%Z "hello" empty_cache c1 (RoutingSupport.Fulfilled 5%nat)
              eq_refl) as (Hfulfilled & _).
  destruct (Hfulfilled 5%nat eq_refl) as (cached & Hcached & _ & _ & Hserve).
  vm_compute in Hcached. injection Hcached as <-.
  intros now' later' Hnow. by apply Hserve.
Defined.

End MoreWitnesses.
